(** * TextCorrector: approximate dictionary-based text correction

    A shallow embedding of [TextCorrector.py] and the proofs of its
    specification.

    Conventions of the embedding.
    - Python [int]s (offsets, matrix indices, shifts) are [Z].
    - A Python [str] is a [list ascii]; a character is a code point below 256.
    - The cost matrix [E] holds floats that are always small non-negative
      integers; they are [nat]s here.  A normalized score [E[m][j] / m] is a
      rational [Q]; the result of a division by a zero length is the
      non-finite float that numpy produces, see [np_divide].
    - The dictionary [D] is a [gmap] keyed by cells; a Python [set] of cells
      is a [gset].
    - [self] is a record that the methods take and give back.
    - A call either returns, raises an exception, or (for the recursive
      [backward], which is run with a recursion budget) is left unfinished:
      type [outcome]. *)

From Stdlib Require Import ZArith QArith List Ascii String Lia.
From stdpp Require Import base option list list_numbers gmap sets strings.

Local Open Scope Z_scope.

(** ** Python values and control *)

Inductive exn : Type := KeyError | TypeError | OSError.

Inductive outcome (A : Type) : Type :=
  | Returns (a : A)
  | Raises (e : exn)
  | Unfinished.

Arguments Returns {A} a.
Arguments Raises {A} e.
Arguments Unfinished {A}.

#[export] Instance outcome_ret : MRet outcome := fun _ a => Returns a.

#[export] Instance outcome_bind : MBind outcome := fun _ _ f x =>
  match x with
  | Returns a => f a
  | Raises e => Raises e
  | Unfinished => Unfinished
  end.

Abbreviation str := (list ascii).
Abbreviation cell := (Z * Z)%type.
Abbreviation span := (Z * Z)%type.

(** [len(s)] *)
Definition len {A} (s : list A) : Z := Z.of_nat (length s).

(** [range(lo, hi)] *)
Definition range (lo hi : Z) : list Z := seqZ lo (hi - lo).

(** [s[k]] for an index that the callers keep within [0 <= k < len(s)]. *)
Definition item (s : str) (k : Z) : ascii := default "000"%char (s !! Z.to_nat k).

(** A slice bound, as Python normalizes it: a negative bound counts from the
    end, and both bounds are clamped to the sequence. *)
Definition slice_bound (n k : Z) : Z :=
  if k <? 0 then Z.max (k + n) 0 else Z.min k n.

(** [s[lo:hi]] *)
Definition slice {A} (s : list A) (lo hi : Z) : list A :=
  let lo' := slice_bound (len s) lo in
  let hi' := slice_bound (len s) hi in
  take (Z.to_nat (hi' - lo')) (drop (Z.to_nat lo') s).

(** [sep.join(pieces)] *)
Fixpoint join (sep : str) (pieces : list str) : str :=
  match pieces with
  | [] => []
  | [p] => p
  | p :: ps => p ++ sep ++ join sep ps
  end.

(** [re.sub(' +', ' ', s)]: every maximal run of spaces becomes one space. *)
Fixpoint collapse_spaces (s : str) : str :=
  match s with
  | [] => []
  | c :: s' =>
      if Ascii.eqb c " " then
        match s' with
        | c' :: _ => if Ascii.eqb c' " " then collapse_spaces s' else c :: collapse_spaces s'
        | [] => [c]
        end
      else c :: collapse_spaces s'
  end.

(** A stable sort: [sorted(l, key=...)] with [le x y] standing for
    "the key of [y] is not smaller than the key of [x]".  An element is put
    in front of the first element that is not smaller, so equal keys keep
    the order they came in. *)
Fixpoint insert_sorted {A} (le : A → A → bool) (x : A) (l : list A) : list A :=
  match l with
  | [] => [x]
  | y :: l' => if le x y then x :: y :: l' else y :: insert_sorted le x l'
  end.

Definition sorted_by {A} (le : A → A → bool) (l : list A) : list A :=
  foldr (insert_sorted le) [] l.

(** Python's order on pairs of integers. *)
Definition pair_le (x y : span) : bool :=
  (x.1 <? y.1) || ((x.1 =? y.1) && (x.2 <=? y.2)).

(** ** Characters *)

Definition code (c : ascii) : Z := Z.of_N (N_of_ascii c).

(** [c.lower()] on the code points below 256: the letters A-Z and the
    accented capitals of Latin-1 (all of 192..222 but the sign 215). *)
Definition lower (c : ascii) : ascii :=
  let k := code c in
  if ((65 <=? k) && (k <=? 90)) || ((192 <=? k) && (k <=? 222) && negb (k =? 215))
  then ascii_of_N (Z.to_N (k + 32))
  else c.

(** Membership in [{' ', '\n'}]. *)
Definition is_blank (c : ascii) : bool := Ascii.eqb c " " || Ascii.eqb c "010".

Definition distance (x y : ascii) : nat :=
  if is_blank x && is_blank y then 0%nat
  else if Ascii.eqb (lower x) (lower y) then 0%nat else 1%nat.

Definition intersect (x y : span) : bool := (y.1 <? x.2) && (x.1 <? y.2).

(** ** The corrector object *)

Record TextCorrector : Type := mkTextCorrector {
  threshold : Q;
  words : list str;
  changed : list span
}.

Definition init (t : Q) : TextCorrector :=
  {| threshold := t; words := []; changed := [] |}.

Definition set_words (ws : list str) (self : TextCorrector) : TextCorrector :=
  {| threshold := threshold self; words := ws; changed := changed self |}.

Definition set_changed (cs : list span) (self : TextCorrector) : TextCorrector :=
  {| threshold := threshold self; words := words self; changed := cs |}.

(** ** forward *)

(** A numpy [float64] as far as [forward] can tell: a quotient, or what a
    division by zero leaves ([nan] for 0/0, [inf] otherwise; numpy warns and
    does not raise). *)
Inductive float64 : Type := Finite (q : Q) | Nan | Inf.

(** [e / d] for a cost [e] and a length [d]. *)
Definition np_divide (e : nat) (d : Z) : float64 :=
  if d =? 0 then (if Nat.eqb e 0 then Nan else Inf)
  else Finite (Z.of_nat e # Z.to_pos d).

(** [np.zeros((rows, cols))] *)
Definition np_zeros (rows cols : Z) : gmap cell nat :=
  foldr (fun i E => foldr (fun j E => <[(i, j) := 0%nat]> E) E (range 0 cols)) ∅ (range 0 rows).

(** [np.where(choices == val)[0].tolist()], counting from [k]. *)
Fixpoint where_eq (k : Z) (choices : list nat) (val : nat) : list Z :=
  match choices with
  | [] => []
  | c :: cs => (if Nat.eqb c val then [k] else []) ++ where_eq (k + 1) cs val
  end.

(** [min(choices)] of the three choices. *)
Definition min3 (a b c : nat) : nat := Nat.min a (Nat.min b c).

(** The body of the inner loop: cell [(i, j)] is filled in. *)
Definition fill_cell (text query : str) (i j : Z)
    (st : gmap cell nat * gmap cell (list Z)) : gmap cell nat * gmap cell (list Z) :=
  let '(E, D) := st in
  let c0 := (E !!! (i - 1, j)%Z + 1)%nat in
  let c1 := (E !!! (i - 1, j - 1)%Z + distance (item query (i - 1)%Z) (item text (j - 1)%Z))%nat in
  let c2 := (E !!! (i, j - 1)%Z + 1)%nat in
  let val := min3 c0 c1 c2 in
  (<[(i, j) := val]> E, <[(i, j) := where_eq 0 [c0; c1; c2] val]> D).

(** The three loops of [forward]: the matrix [E] and the table [D]. *)
Definition forward_tables (text query : str) : gmap cell nat * gmap cell (list Z) :=
  let m := len query in
  let n := len text in
  let E := np_zeros (m + 1) (n + 1) in
  let D := foldl (fun D i => <[(0, i) := [2]]> D) ∅ (range 0 (n + 1)) in
  let st := foldl (fun '(E, D) i => (<[(i, 0) := Z.to_nat i]> E, <[(i, 0) := [0]]> D))
                  (E, D) (range 1 (m + 1)) in
  foldl (fun st i => foldl (fun st j => fill_cell text query i j st) st (range 1 (n + 1)))
        st (range 1 (m + 1)).

(** The list of the end columns with their scores.  A score that is not
    finite never passes the comparison with the threshold. *)
Definition forward_ends (t : Q) (E : gmap cell nat) (m n length : Z) : list (Z * Q) :=
  omap (fun i =>
          match np_divide (E !!! (m, i)) length with
          | Finite q => if Qle_bool q t then Some (i, q) else None
          | Nan | Inf => None
          end) (range 0 (n + 1)).

Definition forward (self : TextCorrector) (text query : str)
    : gmap cell (list Z) * list (Z * Q) :=
  let m := len query in
  let n := len text in
  let length := len query in
  let '(E, D) := forward_tables text query in
  (D, forward_ends (threshold self) E m n length).


(** ** backward *)

(** The cells that one call of [backward] recurses into: the set [res].
    The three candidates are distinct cells, so the list has no duplicate. *)
Definition predecessors (ops : list Z) (start : cell) : list cell :=
  (if bool_decide (0 ∈ ops) then [(start.1 - 1, start.2)] else []) ++
  (if bool_decide (1 ∈ ops) then [(start.1 - 1, start.2 - 1)] else []) ++
  (if bool_decide (2 ∈ ops) then [(start.1, start.2 - 1)] else []).

(** [backward] with a budget of nested calls. [D[start]] raises [KeyError]
    for a cell that is not in the table. *)
Fixpoint backward (fuel : nat) (D : gmap cell (list Z)) (start : cell) : outcome (gset cell) :=
  match fuel with
  | O => Unfinished
  | S fuel' =>
      if start.1 =? 0 then Returns {[ start ]}
      else
        match D !! start with
        | None => Raises KeyError
        | Some ops =>
            sets ← mapM (backward fuel' D) (predecessors ops start);
            Returns (⋃ sets)
        end
  end.

(** ** find *)

(** Equality of scores.  The scores of one call of [find] are quotients by
    the same length, written with that denominator, so that two of them are
    equal floats exactly when they are the same fraction. *)
#[export] Instance Q_eq_dec : EqDecision Q.
Proof. solve_decision. Defined.

(** The budget of nested calls for a start cell.  A nested call is on a
    cell whose coordinates have a smaller sum, and the table of [forward] has
    no operation that leaves the table, so one more than the sum is enough
    (lemma [backward_returns]). *)
Definition backward_budget (start : cell) : nat := S (Z.to_nat (start.1 + start.2)).

Definition find (self : TextCorrector) (text query : str) : outcome (list (span * Q)) :=
  let '(D, E) := forward self text query in
  let m := len query in
  let start := (fun x : Z * Q => ((m, x.1), x.2)) <$> E in
  found ← mapM (fun x : cell * Q =>
                  ys ← backward (backward_budget x.1) D x.1;
                  Returns ((fun y : cell => ((y.2, x.1.2), x.2)) <$> elements ys))
               start;
  Returns (remove_dups (concat found)).

(** ** choose_positions *)

(** The loop over the candidates, best score first: a candidate is kept
    unless the inner loop over [chosen_positions + self.changed] meets an
    interval that it intersects. *)
Definition select_positions (protected : list span) (positions : list (span * Q)) : list span :=
  foldl (fun chosen_positions position =>
           if existsb (intersect position.1) (chosen_positions ++ protected)
           then chosen_positions
           else chosen_positions ++ [position.1])
        [] positions.

(** [sorted(candidates, key=itemgetter(1))], the greedy loop, and
    [sorted(chosen_positions)].  The candidates come as the list in which
    the set is iterated. *)
Definition choose_from (protected : list span) (candidates : list (span * Q)) : list span :=
  let positions := sorted_by (fun x y => Qle_bool x.2 y.2) candidates in
  sorted_by pair_le (select_positions protected positions).

Definition choose_positions (self : TextCorrector) (text query : str) : outcome (list span) :=
  candidates ← find self text query;
  Returns (choose_from (changed self) candidates).

(** ** add_positions *)

(** [l.insert(i, x)] *)
Definition list_insert_at {A} (i : nat) (x : A) (l : list A) : list A :=
  take i l ++ x :: drop i l.

(** [l[i] = (l[i][0] + d, l[i][1] + d)] *)
Definition shift_at (i : nat) (d : Z) (l : list span) : list span :=
  match l !! i with
  | Some c => <[i := (c.1 + d, c.2 + d)]> l
  | None => l
  end.

(** The inner loop for one position over the indices [idxs] that are left
    of [range(i_start, len(self.changed))], with its [else] clause.  The
    result is the list, the cumulative shift and the next [i_start].  The
    indices of the range are below the length of the list, which only grows,
    so [self.changed[i]] is always there; the branch [None] is never taken. *)
Fixpoint place (position : span) (shift : Z) (idxs : list nat)
    (cs : list span) (cum_shift : Z) : list span * Z * nat :=
  match idxs with
  | [] =>
      let cs' := cs ++ [(position.1 + cum_shift, position.1 + cum_shift + shift)] in
      (cs', cum_shift + (shift - position.2 + position.1), length cs')
  | i :: idxs' =>
      match cs !! i with
      | Some c =>
          if c.1 >? position.1
          then (list_insert_at i (position.1 + cum_shift, position.1 + cum_shift + shift) cs,
                cum_shift + (shift - position.2 + position.1), S i)
          else place position shift idxs' (shift_at i cum_shift cs) cum_shift
      | None => (cs, cum_shift, i)
      end
  end.

Definition add_positions (self : TextCorrector) (positions : list span) (shift : Z) : TextCorrector :=
  match positions with
  | [] => self
  | position :: _ =>
      let '(cs, cum_shift, i_start) :=
        match changed self with
        | [] => ([(position.1, position.1 + shift)], shift - position.2 + position.1, 1%nat)
        | _ :: _ => (changed self, 0, 0%nat)
        end in
      (* positions[not self.changed:], read after the branch above *)
      let rest := drop (if bool_decide (cs = []) then 1 else 0)%nat positions in
      let '(cs, cum_shift, i_start) :=
        foldl (fun '(cs, cum_shift, i_start) position =>
                 place position shift (seq i_start (length cs - i_start)) cs cum_shift)
              (cs, cum_shift, i_start) rest in
      set_changed
        (foldl (fun cs i => shift_at i cum_shift cs) cs (seq i_start (length cs - i_start)))
        self
  end.

(** ** correct *)

(** One round of the loop of [correct], for the word [query]. *)
Definition correct_word (st : TextCorrector * str) (query : str) : outcome (TextCorrector * str) :=
  let '(self, corrected_text) := st in
  let length := len corrected_text in
  chosen_positions ← choose_positions self corrected_text query;
  let self := add_positions self chosen_positions (len query + 2) in
  let selectors := [(0, 0)] ++ chosen_positions ++ [(length, length)] in
  let spaced_query := " "%char :: query ++ [" "%char] in
  Returns (self,
           join spaced_query
                ((fun xy : span * span => slice corrected_text xy.1.2 xy.2.1)
                   <$> zip selectors (drop 1 selectors))).

Definition correct (self : TextCorrector) (text : str) : outcome (TextCorrector * str) :=
  st ← foldl (fun acc query => st ← acc; correct_word st query)
             (Returns (set_changed [] self, text)) (words self);
  Returns (st.1, collapse_spaces st.2).

(** ** load *)

(** [s.splitlines()]: the line boundaries below code point 256. *)
Definition is_linebreak (c : ascii) : bool :=
  bool_decide (code c ∈ [10; 11; 12; 13; 28; 29; 30; 133]).

(** [cur] is the line read so far, last character first. *)
Fixpoint splitlines_from (cur : str) (s : str) : list str :=
  match s with
  | [] => match cur with [] => [] | _ :: _ => [rev cur] end
  | c :: s' =>
      if is_linebreak c then
        rev cur ::
          match s' with
          | c' :: s'' =>
              if Ascii.eqb c "013" && Ascii.eqb c' "010"
              then splitlines_from [] s''
              else splitlines_from [] s'
          | [] => splitlines_from [] s'
          end
      else splitlines_from (c :: cur) s'
  end.

Definition splitlines (s : str) : list str := splitlines_from [] s.

(** What [load] may be given. *)
Inductive load_input : Type :=
  | InputList (l : list str)
  | InputSet (s : gset str)
  | InputPath (path : str)
  | InputOther.

(** [fs] is the file system: what [open(path, 'r').read()] gives, if the
    file can be read.  A set is listed in the order [elements]. *)
Definition load (fs : str → option str) (self : TextCorrector) (input_words : load_input)
    : outcome TextCorrector :=
  ws ← match input_words with
       | InputList l => Returns (elements (list_to_set l : gset str))
       | InputSet s => Returns (elements s)
       | InputPath path =>
           match fs path with
           | Some content => Returns (elements (list_to_set (splitlines content) : gset str))
           | None => Raises OSError
           end
       | InputOther => Raises TypeError
       end;
  Returns (set_words (sorted_by (fun x y : str => len y <=? len x) ws) self).

(** ** The tables as functions of the cell *)

(** The entry [E[i, j]] that the loops of [forward] leave, by the recurrence
    of the inner loop over the boundary row and column. *)
Fixpoint Ecell (text query : str) (i : nat) : nat → nat :=
  match i with
  | O => fun _ => 0%nat
  | S i' =>
      fix row (j : nat) : nat :=
        match j with
        | O => S i'
        | S j' =>
            min3 (Ecell text query i' (S j') + 1)
                 (Ecell text query i' j'
                  + distance (item query (Z.of_nat i')) (item text (Z.of_nat j')))
                 (row j' + 1)
        end
  end%nat.

(** The three choices at an inner cell, as [forward] lists them. *)
Definition choices_at (text query : str) (i' j' : nat) : list nat :=
  [ Ecell text query i' (S j') + 1;
    Ecell text query i' j' + distance (item query (Z.of_nat i')) (item text (Z.of_nat j'));
    Ecell text query (S i') j' + 1 ]%nat.

(** The entry [D[(i, j)]]. *)
Definition Dcell (text query : str) (i j : nat) : list Z :=
  match i, j with
  | O, _ => [2]
  | S _, O => [0]
  | S i', S j' => where_eq 0 (choices_at text query i' j') (Ecell text query i j)
  end.

(** The cells of the tables. *)
Definition in_table (text query : str) (c : cell) : Prop :=
  0 ≤ c.1 ≤ len query ∧ 0 ≤ c.2 ≤ len text.

(** ** Following the decision table *)

(** One step of path recovery from a cell that is not in row 0: an operation
    recorded for the cell leads to the cell before it. *)
Inductive follows (D : gmap cell (list Z)) : cell → cell → Prop :=
  | follows_delete c ops :
      c.1 ≠ 0 → D !! c = Some ops → 0 ∈ ops → follows D c (c.1 - 1, c.2)
  | follows_substitute c ops :
      c.1 ≠ 0 → D !! c = Some ops → 1 ∈ ops → follows D c (c.1 - 1, c.2 - 1)
  | follows_insert c ops :
      c.1 ≠ 0 → D !! c = Some ops → 2 ∈ ops → follows D c (c.1, c.2 - 1).

(** The start cells of [c]: the cells of row 0 that the steps lead to. *)
Definition start_cell (D : gmap cell (list Z)) (c c' : cell) : Prop :=
  c'.1 = 0 ∧ rtc (follows D) c c'.

(** ** Edit distance *)

(** The edit distance between the first [i] characters of [q] and the first
    [j] characters of [s]: a character of [q] is deleted or a character of
    [s] is inserted at cost 1, a character is substituted at cost
    [distance]. *)
Fixpoint lev (q s : str) (i : nat) : nat → nat :=
  match i with
  | O => fun j => j
  | S i' =>
      fix row (j : nat) : nat :=
        match j with
        | O => S i'
        | S j' =>
            min3 (lev q s i' (S j') + 1)
                 (lev q s i' j' + distance (item q (Z.of_nat i')) (item s (Z.of_nat j')))
                 (row j' + 1)
        end
  end%nat.

Definition edit_distance (q s : str) : nat := lev q s (length q) (length s).

(** [text[a:b]] for [a <= b <= len(text)] *)
Definition substring (text : str) (a b : nat) : str := take (b - a) (drop a text).

(** The pairs [(a, b)] with [a <= b <= n]. *)
Definition substring_bounds (n : nat) : list (nat * nat) :=
  a ← seq 0 (S n); b ← seq a (S n - a); [(a, b)].

(** The least edit distance between the query and a substring of the text. *)
Definition best_distance (text query : str) : nat :=
  foldr Nat.min (edit_distance query [])
        ((fun ab : nat * nat => edit_distance query (substring text ab.1 ab.2))
           <$> substring_bounds (length text)).

(** The score of a raw cost for a query. *)
Definition normalized (cost : nat) (query : str) : Q := Z.of_nat cost # Z.to_pos (len query).

(** ** Orderings *)

(** No two entries of the list intersect. *)
Definition pairwise_disjoint (l : list span) : Prop :=
  ∀ (i j : nat) (x y : span), i ≠ j → l !! i = Some x → l !! j = Some y → intersect x y = false.

(** Every entry is related to the entries after it. *)
Definition ordered {A} (R : A → A → Prop) (l : list A) : Prop :=
  ∀ (i j : nat) (x y : A), (i < j)%nat → l !! i = Some x → l !! j = Some y → R x y.

(** Ascending by start. *)
Definition ascending (l : list span) : Prop := ordered (fun x y : span => x.1 ≤ y.1) l.

(** Descending by length. *)
Definition longest_first (l : list str) : Prop :=
  ordered (fun x y : str => (length y ≤ length x)%nat) l.

(** Ascending by score. *)
Definition best_first (l : list (span * Q)) : Prop :=
  ordered (fun x y : span * Q => (x.2 <= y.2)%Q) l.

(** ** Invariants of the loops of forward *)

(** The state of the loops agrees with [Ecell] and [Dcell] on a region. *)
Definition agree (text query : str) (R : Z → Z → Prop)
    (st : gmap cell nat * gmap cell (list Z)) : Prop :=
  ∀ a b, R a b →
    st.1 !!! (a, b) = Ecell text query (Z.to_nat a) (Z.to_nat b) ∧
    st.2 !! (a, b) = Some (Dcell text query (Z.to_nat a) (Z.to_nat b)).

(** The cells that are final before cell [(i, j)] is filled in. *)
Definition filled (m n i j a b : Z) : Prop :=
  (a = 0 ∧ 0 ≤ b ≤ n) ∨ (1 ≤ a ≤ m ∧ b = 0) ∨
  (1 ≤ a < i ∧ 1 ≤ b ≤ n) ∨ (a = i ∧ 1 ≤ b < j).

(** ** The value of correct *)

(** The string that [correct] returns; [correct] itself also gives back the
    object, whose list [changed] it has updated. *)
Definition correct_text (self : TextCorrector) (text : str) : outcome str :=
  st ← correct self text; Returns st.2.

(** ** Examples *)

Definition hello : str := list_ascii_of_string "hello".
Definition helo_world : str := list_ascii_of_string "helo world".

(** The corrector with the threshold 0.3 and the vocabulary [{"hello"}]. *)
Definition hello_corrector : TextCorrector := set_words [hello] (init (3 # 10)).


(** ** The merge that add_positions carries out *)

(** An interval moved by [d]. *)
Definition shifted (d : Z) (c : span) : span := (c.1 + d, c.2 + d).

(** The interval that takes the place of a position, under the shift
    accumulated so far. *)
Definition new_interval (position : span) (shift cum_shift : Z) : span :=
  (position.1 + cum_shift, position.1 + cum_shift + shift).

(** The shift after a position was replaced. *)
Definition next_shift (position : span) (shift cum_shift : Z) : Z :=
  cum_shift + (shift - position.2 + position.1).

(** One position against the old intervals that are still to come: the
    intervals that do not start after the position are moved, then comes the
    new interval; the others are left for the next position. *)
Fixpoint remap_one (position : span) (shift cum_shift : Z) (pending : list span)
    : list span * list span :=
  match pending with
  | [] => ([new_interval position shift cum_shift], [])
  | c :: rest =>
      if c.1 >? position.1
      then ([new_interval position shift cum_shift], c :: rest)
      else let '(f, r) := remap_one position shift cum_shift rest in
           (shifted cum_shift c :: f, r)
  end.

(** All the positions against the old intervals. *)
Fixpoint remap (pending positions : list span) (shift cum_shift : Z) : list span :=
  match positions with
  | [] => shifted cum_shift <$> pending
  | p :: ps =>
      let '(f, r) := remap_one p shift cum_shift pending in
      f ++ remap r ps shift (next_shift p shift cum_shift)
  end.

(** Intervals that follow one another: ascending, pairwise disjoint and
    none of them empty. *)
Definition well_separated (l : list span) : Prop :=
  ascending l ∧ pairwise_disjoint l ∧ ∀ x, x ∈ l → x.1 < x.2.

(** Each interval ends before the next one starts, and none is empty. *)
Definition chained (l : list span) : Prop :=
  ordered (fun x y : span => x.2 ≤ y.1) l ∧ ∀ x, x ∈ l → x.1 < x.2.

(** ** Runs of spaces *)


(** A file of two lines, whatever its path. *)
Definition two_lines_fs (path : str) : option str :=
  Some (list_ascii_of_string "ab" ++ ["010"%char] ++ list_ascii_of_string "hello").

(** ** The text that a round builds *)

(** The shift accumulated by the first [k] positions. *)
Fixpoint shift_before (positions : list span) (shift : Z) (k : nat) : Z :=
  match k, positions with
  | S k', p :: ps => (shift - p.2 + p.1) + shift_before ps shift k'
  | _, _ => 0
  end.

(** The new text of a round of [correct], from the chosen positions. *)
Definition rebuilt (text query : str) (chosen : list span) : str :=
  let length := len text in
  let selectors := [(0, 0)] ++ chosen ++ [(length, length)] in
  let spaced_query := " "%char :: query ++ [" "%char] in
  join spaced_query
       ((fun xy : span * span => slice text xy.1.2 xy.2.1)
          <$> zip selectors (drop 1 selectors)).

(** The pieces of the text between the positions, from the offset [prev]
    to the offset [n]. *)
Fixpoint pieces (text : str) (prev : Z) (ps : list span) (n : Z) : list str :=
  match ps with
  | [] => [slice text prev n]
  | p :: ps' => slice text prev p.1 :: pieces text p.2 ps' n
  end.

(** The positions follow one another between [prev] and [n]. *)
Fixpoint in_sequence (prev : Z) (ps : list span) (n : Z) : Prop :=
  match ps with
  | [] => prev ≤ n
  | p :: ps' => prev ≤ p.1 ∧ p.1 ≤ p.2 ∧ in_sequence p.2 ps' n
  end.

(** * Proofs *)

(** ** Loops *)

Lemma range_snoc (lo : Z) (k : nat) :
  range lo (lo + Z.of_nat (S k)) = range lo (lo + Z.of_nat k) ++ [lo + Z.of_nat k].
Proof.
  unfold range.
  replace (lo + Z.of_nat (S k) - lo) with (Z.of_nat (S k)) by lia.
  replace (lo + Z.of_nat k - lo) with (Z.of_nat k) by lia.
  apply seqZ_S.
Qed.

Lemma range_empty (lo hi : Z) : hi ≤ lo → range lo hi = [].
Proof. intros H. unfold range. apply seqZ_nil. lia. Qed.

Lemma elem_of_range (lo hi k : Z) : k ∈ range lo hi ↔ lo ≤ k < hi.
Proof. unfold range. rewrite elem_of_seqZ. lia. Qed.

(** A loop over [range(lo, hi)] keeps an invariant indexed by the next
    value of the loop variable. *)
Lemma foldl_range_inv {St : Type} (P : Z → St → Prop) (f : St → Z → St) (lo hi : Z) (s0 : St) :
  lo ≤ hi →
  P lo s0 →
  (∀ i s, lo ≤ i < hi → P i s → P (i + 1) (f s i)) →
  P hi (foldl f s0 (range lo hi)).
Proof.
  intros Hle H0 Hstep.
  replace hi with (lo + Z.of_nat (Z.to_nat (hi - lo))) in * by lia.
  generalize dependent (Z.to_nat (hi - lo)). intros k _ Hstep.
  induction k as [|k IH].
  - rewrite range_empty by lia. simpl. by replace (lo + Z.of_nat 0) with lo by lia.
  - rewrite range_snoc, foldl_app. simpl.
    replace (lo + Z.of_nat (S k)) with (lo + Z.of_nat k + 1) by lia.
    apply Hstep; [lia|]. apply IH. intros i s Hi. apply Hstep. lia.
Qed.

(** ** The monad of outcomes *)

Lemma mapM_Returns {A B : Type} (f : A → outcome B) (Q : A → B → Prop) (l : list A) :
  (∀ x, x ∈ l → ∃ y, f x = Returns y ∧ Q x y) →
  ∃ k, mapM f l = Returns k ∧ Forall2 Q l k.
Proof.
  induction l as [|x l IH]; intros H.
  - exists []. split; [done | constructor].
  - destruct (H x) as (y & Hy & HQ); [by left|].
    destruct IH as (k & Hk & HF); [intros z Hz; apply H; by right|].
    exists (y :: k). split; [| by constructor].
    simpl. rewrite Hy. simpl. rewrite Hk. done.
Qed.

(** ** forward: the tables *)

Lemma zero_row_lookup (i : Z) (l : list Z) (E : gmap cell nat) (c : cell) :
  E !!! c = 0%nat → foldr (fun j E => <[(i, j) := 0%nat]> E) E l !!! c = 0%nat.
Proof.
  intros HE. induction l as [|j l IH]; simpl; [done|].
  destruct (decide ((i, j) = c)) as [->|Hne].
  - by rewrite lookup_total_insert_eq.
  - by rewrite lookup_total_insert_ne.
Qed.

Lemma np_zeros_lookup (rows cols : Z) (c : cell) : np_zeros rows cols !!! c = 0%nat.
Proof.
  unfold np_zeros.
  induction (range 0 rows) as [|i l IH]; simpl.
  - by rewrite lookup_total_empty.
  - by apply zero_row_lookup.
Qed.

Lemma Ecell_row0 text query j : Ecell text query 0 j = 0%nat.
Proof. done. Qed.

Lemma Ecell_col0 text query i : Ecell text query i 0 = i.
Proof. by destruct i. Qed.

Lemma Ecell_inner text query i' j' :
  Ecell text query (S i') (S j') =
  min3 (Ecell text query i' (S j') + 1)
       (Ecell text query i' j' + distance (item query (Z.of_nat i')) (item text (Z.of_nat j')))
       (Ecell text query (S i') j' + 1).
Proof. done. Qed.

Lemma lev_inner q s i' j' :
  lev q s (S i') (S j') =
  min3 (lev q s i' (S j') + 1)
       (lev q s i' j' + distance (item q (Z.of_nat i')) (item s (Z.of_nat j')))
       (lev q s (S i') j' + 1).
Proof. done. Qed.

Lemma lev_col0 q s i : lev q s i 0 = i.
Proof. by destruct i. Qed.

Lemma fill_cell_agree text query m n i j st :
  1 ≤ i ≤ m → 1 ≤ j ≤ n →
  agree text query (filled m n i j) st →
  agree text query (filled m n i (j + 1)) (fill_cell text query i j st).
Proof.
  intros Hi Hj Hst. destruct st as [E D].
  destruct (Hst (i - 1) j) as [E0 _]; [unfold filled; lia|].
  destruct (Hst (i - 1) (j - 1)) as [E1 _]; [unfold filled; lia|].
  destruct (Hst i (j - 1)) as [E2 _]; [unfold filled; lia|].
  simpl in E0, E1, E2.
  assert (Hi' : Z.to_nat i = S (Z.to_nat (i - 1))) by lia.
  assert (Hj' : Z.to_nat j = S (Z.to_nat (j - 1))) by lia.
  assert (Hval : min3 (E !!! (i - 1, j) + 1)
                   (E !!! (i - 1, j - 1) + distance (item query (i - 1)) (item text (j - 1)))
                   (E !!! (i, j - 1) + 1)
                 = Ecell text query (Z.to_nat i) (Z.to_nat j)).
  { rewrite E0, E1, E2. rewrite Hi', Hj', Ecell_inner. rewrite <- Hi', <- Hj'.
    by rewrite !Z2Nat.id by lia. }
  intros a b Hab. unfold fill_cell. simpl.
  destruct (decide ((i, j) = (a, b))) as [Heq|Hne].
  - injection Heq as <- <-.
    rewrite lookup_total_insert_eq, lookup_insert_eq. split; [exact Hval|].
    f_equal. rewrite Hval.
    rewrite Hi', Hj'. unfold Dcell, choices_at. rewrite <- Hi', <- Hj'.
    rewrite E0, E1, E2. by rewrite !Z2Nat.id by lia.
  - rewrite lookup_total_insert_ne, lookup_insert_ne by done.
    apply Hst. unfold filled in *.
    assert (a ≠ i ∨ b ≠ j) by (destruct (decide (a = i)); destruct (decide (b = j)); [subst; congruence | lia..]).
    lia.
Qed.

Lemma agree_weaken text query (R R' : Z → Z → Prop) st :
  (∀ a b, R' a b → R a b) → agree text query R st → agree text query R' st.
Proof. intros HR Hst a b Hab. apply Hst, HR, Hab. Qed.

Lemma row0_table (n : Z) (b : Z) :
  0 ≤ n → 0 ≤ b ≤ n →
  foldl (fun (D : gmap cell (list Z)) i => <[(0, i) := [2]]> D) ∅ (range 0 (n + 1)) !! (0, b)
  = Some [2].
Proof.
  intros Hn Hb.
  pose (P := fun (j : Z) (D : gmap cell (list Z)) => ∀ b, 0 ≤ b < j → D !! (0, b) = Some [2]).
  cut (P (n + 1) (foldl (fun D i => <[(0, i) := [2]]> D) ∅ (range 0 (n + 1)))).
  { intros HP. apply HP. lia. }
  apply foldl_range_inv; [lia | |].
  - intros b' Hb'. lia.
  - intros i D Hi HD b' Hb'.
    destruct (decide (b' = i)) as [->|Hne].
    + by rewrite lookup_insert_eq.
    + rewrite lookup_insert_ne by congruence. apply HD. lia.
Qed.

(** The tables that [forward] builds are [Ecell] and [Dcell] on every cell. *)
Lemma forward_tables_agree text query :
  agree text query (fun a b => 0 ≤ a ≤ len query ∧ 0 ≤ b ≤ len text)
        (forward_tables text query).
Proof.
  unfold forward_tables.
  set (m := len query). set (n := len text).
  assert (Hm : 0 ≤ m) by (unfold m, len; lia).
  assert (Hn : 0 ≤ n) by (unfold n, len; lia).
  eapply agree_weaken; cycle 1.
  - apply (foldl_range_inv (fun i st => agree text query (filled m n i 1) st)); [lia | |].
    + (* the boundary column *)
      eapply agree_weaken; cycle 1.
      * apply (foldl_range_inv
                 (fun i st => agree text query
                                (fun a b => (a = 0 ∧ 0 ≤ b ≤ n) ∨ (1 ≤ a < i ∧ b = 0)) st));
          [lia | |].
        -- intros a b [[-> Hb]|[Ha _]]; [|lia]. simpl. split.
           ++ apply np_zeros_lookup.
           ++ by apply row0_table.
        -- intros i [E D] Hi Hst a b Hab. simpl.
           destruct (decide ((i, 0) = (a, b))) as [Heq|Hne].
           ++ injection Heq as <- <-.
              rewrite lookup_total_insert_eq, lookup_insert_eq.
              rewrite Ecell_col0. split; [done|].
              replace (Z.to_nat i) with (S (Z.to_nat (i - 1))) by lia. done.
           ++ rewrite lookup_total_insert_ne, lookup_insert_ne by done.
              apply (Hst a b).
              destruct Hab as [?|[? ->]]; [by left|].
              right. split; [|done].
              assert (a ≠ i) by congruence. lia.
      * unfold filled. intros a b. simpl. lia.
    + (* one row *)
      intros i st Hi Hst.
      eapply agree_weaken; cycle 1.
      * apply (foldl_range_inv (fun j st => agree text query (filled m n i j) st)); [lia | exact Hst |].
        intros j st' Hj Hst'. apply fill_cell_agree; [lia | lia | done].
      * unfold filled. intros a b. simpl. lia.
  - unfold filled. intros a b. simpl. lia.
Qed.

Lemma forward_tables_E text query (i j : nat) :
  (i ≤ length query)%nat → (j ≤ length text)%nat →
  (forward_tables text query).1 !!! (Z.of_nat i, Z.of_nat j) = Ecell text query i j.
Proof.
  intros Hi Hj.
  destruct (forward_tables_agree text query (Z.of_nat i) (Z.of_nat j)) as [HE _].
  { unfold len. lia. }
  by rewrite HE, !Nat2Z.id.
Qed.

Lemma forward_tables_D text query (i j : nat) :
  (i ≤ length query)%nat → (j ≤ length text)%nat →
  (forward_tables text query).2 !! (Z.of_nat i, Z.of_nat j) = Some (Dcell text query i j).
Proof.
  intros Hi Hj.
  destruct (forward_tables_agree text query (Z.of_nat i) (Z.of_nat j)) as [_ HD].
  { unfold len. lia. }
  by rewrite HD, !Nat2Z.id.
Qed.

(** ** forward: the decisions and the end columns *)

Lemma elem_of_where_eq3 (c0 c1 c2 v : nat) (k : Z) :
  k ∈ where_eq 0 [c0; c1; c2] v ↔
  (k = 0 ∧ c0 = v) ∨ (k = 1 ∧ c1 = v) ∨ (k = 2 ∧ c2 = v).
Proof.
  simpl.
  destruct (Nat.eqb_spec c0 v), (Nat.eqb_spec c1 v), (Nat.eqb_spec c2 v);
    simpl; rewrite ?elem_of_cons, ?elem_of_nil; intuition lia.
Qed.

Lemma where_eq_min3_nonempty (c0 c1 c2 : nat) :
  where_eq 0 [c0; c1; c2] (min3 c0 c1 c2) ≠ [].
Proof.
  unfold min3. simpl.
  destruct (Nat.eqb_spec c0 (c0 `min` (c1 `min` c2))); [done|].
  destruct (Nat.eqb_spec c1 (c0 `min` (c1 `min` c2))); [done|].
  destruct (Nat.eqb_spec c2 (c0 `min` (c1 `min` c2))); [done|].
  lia.
Qed.

Lemma np_divide_finite (e : nat) (d : Z) :
  d ≠ 0 → np_divide e d = Finite (Z.of_nat e # Z.to_pos d).
Proof. intros Hd. unfold np_divide. by destruct (Z.eqb_spec d 0). Qed.

Lemma elem_of_forward_ends (t : Q) (E : gmap cell nat) (m n : Z) (j : Z) (s : Q) :
  m ≠ 0 →
  (j, s) ∈ forward_ends t E m n m ↔
  0 ≤ j ≤ n ∧ s = (Z.of_nat (E !!! (m, j)) # Z.to_pos m) ∧ (s <= t)%Q.
Proof.
  intros Hm. unfold forward_ends. rewrite list_elem_of_omap. split.
  - intros (i & Hi & Hf). apply elem_of_range in Hi.
    rewrite np_divide_finite in Hf by done.
    destruct (Qle_bool _ t) eqn:Hle; [|done].
    injection Hf as <- <-. apply Qle_bool_iff in Hle. split; [lia|done].
  - intros (Hj & -> & Hle). exists j. split; [apply elem_of_range; lia|].
    rewrite np_divide_finite by done.
    apply Qle_bool_iff in Hle. by rewrite Hle.
Qed.

Lemma forward_unfold self text query :
  forward self text query =
  ((forward_tables text query).2,
   forward_ends (threshold self) (forward_tables text query).1
                (len query) (len text) (len query)).
Proof. unfold forward. by destruct (forward_tables text query). Qed.

Lemma len_nonzero {A} (l : list A) : l ≠ [] → len l ≠ 0.
Proof. destruct l; [done|]. unfold len. simpl. lia. Qed.

(** The entries of the tables at Python's indices. *)
Lemma forward_E_at text query (i j : Z) :
  0 ≤ i ≤ len query → 0 ≤ j ≤ len text →
  (forward_tables text query).1 !!! (i, j) = Ecell text query (Z.to_nat i) (Z.to_nat j).
Proof. intros Hi Hj. by apply forward_tables_agree. Qed.

Lemma forward_D_at text query (i j : Z) :
  0 ≤ i ≤ len query → 0 ≤ j ≤ len text →
  (forward_tables text query).2 !! (i, j) = Some (Dcell text query (Z.to_nat i) (Z.to_nat j)).
Proof. intros Hi Hj. by apply forward_tables_agree. Qed.

(** C4. For a non-empty query, [forward] leaves the matrix [E] with a zero
    row 0, the column 0 equal to the row index, and every inner entry equal
    to the least of the three choices (delete, substitute, insert); [D]
    holds [[2]] on row 0, [[0]] on column 0 and, at an inner cell, exactly the
    indices of the choices that attain the minimum; and the returned end list
    holds exactly the pairs [(j, E[m, j] / m)] whose score is at most the
    threshold. *)
Theorem forward_computes_tables (self : TextCorrector) (text query : str) :
  query ≠ [] →
  let m := len query in
  let n := len text in
  let E := (forward_tables text query).1 in
  let D := (forward_tables text query).2 in
  (∀ j, 0 ≤ j ≤ n → E !!! (0, j) = 0%nat) ∧
  (∀ i, 1 ≤ i ≤ m → E !!! (i, 0) = Z.to_nat i) ∧
  (∀ i j, 1 ≤ i ≤ m → 1 ≤ j ≤ n →
     E !!! (i, j) =
     min3 (E !!! (i - 1, j)%Z + 1)%nat
          (E !!! (i - 1, j - 1)%Z
           + distance (item query (i - 1)%Z) (item text (j - 1)%Z))%nat
          (E !!! (i, j - 1)%Z + 1)%nat) ∧
  (∀ j, 0 ≤ j ≤ n → D !! (0, j) = Some [2]) ∧
  (∀ i, 1 ≤ i ≤ m → D !! (i, 0) = Some [0]) ∧
  (∀ i j, 1 ≤ i ≤ m → 1 ≤ j ≤ n →
     ∃ ops, D !! (i, j) = Some ops ∧
       ∀ k, k ∈ ops ↔
            (k = 0 ∧ (E !!! (i - 1, j)%Z + 1)%nat = E !!! (i, j)) ∨
            (k = 1 ∧ (E !!! (i - 1, j - 1)%Z
                      + distance (item query (i - 1)%Z) (item text (j - 1)%Z))%nat
                     = E !!! (i, j)) ∨
            (k = 2 ∧ (E !!! (i, j - 1)%Z + 1)%nat = E !!! (i, j))) ∧
  (forward self text query).1 = D ∧
  (∀ j s, (j, s) ∈ (forward self text query).2 ↔
          0 ≤ j ≤ n ∧ s = (Z.of_nat (E !!! (m, j)) # Z.to_pos m) ∧ (s <= threshold self)%Q).
Proof.
  intros Hq m n E D.
  assert (Hinner : ∀ i j, 1 ≤ i ≤ m → 1 ≤ j ≤ n →
            E !!! (i - 1, j) = Ecell text query (Z.to_nat (i - 1)) (S (Z.to_nat (j - 1))) ∧
            E !!! (i - 1, j - 1) = Ecell text query (Z.to_nat (i - 1)) (Z.to_nat (j - 1)) ∧
            E !!! (i, j - 1) = Ecell text query (S (Z.to_nat (i - 1))) (Z.to_nat (j - 1)) ∧
            E !!! (i, j) = Ecell text query (S (Z.to_nat (i - 1))) (S (Z.to_nat (j - 1))) ∧
            D !! (i, j) = Some (Dcell text query (S (Z.to_nat (i - 1))) (S (Z.to_nat (j - 1))))).
  { intros i j Hi Hj. unfold E, D.
    rewrite !forward_E_at, forward_D_at by (unfold m, n, len in *; lia).
    replace (Z.to_nat i) with (S (Z.to_nat (i - 1))) by lia.
    replace (Z.to_nat j) with (S (Z.to_nat (j - 1))) by lia. done. }
  split_and!.
  - intros j Hj. unfold E. rewrite forward_E_at by (unfold m, n, len in *; lia). done.
  - intros i Hi. unfold E. rewrite forward_E_at by (unfold m, n, len in *; lia). apply Ecell_col0.
  - intros i j Hi Hj. destruct (Hinner i j Hi Hj) as (-> & -> & -> & -> & _).
    rewrite Ecell_inner. by rewrite !Z2Nat.id by lia.
  - intros j Hj. unfold D. rewrite forward_D_at by (unfold m, n, len in *; lia). done.
  - intros i Hi. unfold D. rewrite forward_D_at by (unfold m, n, len in *; lia).
    replace (Z.to_nat i) with (S (Z.to_nat (i - 1))) by lia. done.
  - intros i j Hi Hj. destruct (Hinner i j Hi Hj) as (-> & -> & -> & -> & ->).
    eexists. split; [done|]. intros k.
    unfold Dcell, choices_at. rewrite elem_of_where_eq3.
    by rewrite !Z2Nat.id by lia.
  - by rewrite forward_unfold.
  - intros j s. rewrite forward_unfold. simpl.
    apply elem_of_forward_ends. by apply len_nonzero.
Qed.

(** ** backward *)

Lemma elem_of_predecessors (ops : list Z) (c p : cell) :
  p ∈ predecessors ops c ↔
  (0 ∈ ops ∧ p = (c.1 - 1, c.2)) ∨
  (1 ∈ ops ∧ p = (c.1 - 1, c.2 - 1)) ∨
  (2 ∈ ops ∧ p = (c.1, c.2 - 1)).
Proof.
  unfold predecessors. rewrite !elem_of_app.
  repeat case_bool_decide;
    rewrite ?list_elem_of_singleton, ?elem_of_nil; intuition congruence.
Qed.

Lemma follows_predecessors (D : gmap cell (list Z)) (c p : cell) :
  follows D c p ↔ c.1 ≠ 0 ∧ ∃ ops, D !! c = Some ops ∧ p ∈ predecessors ops c.
Proof.
  split.
  - intros H. destruct H as [c ops H1 H2 H3|c ops H1 H2 H3|c ops H1 H2 H3];
      (split; [done|]); exists ops; (split; [done|]);
      apply elem_of_predecessors; naive_solver.
  - intros (H1 & ops & H2 & H3). apply elem_of_predecessors in H3.
    destruct H3 as [[? ->]|[[? ->]|[? ->]]].
    + by eapply follows_delete.
    + by eapply follows_substitute.
    + by eapply follows_insert.
Qed.

(** The operations recorded at a cell below row 0. *)
Lemma Dcell_ops text query (i' j : nat) (k : Z) :
  k ∈ Dcell text query (S i') j → (k = 0 ∨ ((k = 1 ∨ k = 2) ∧ j ≠ 0%nat)).
Proof.
  destruct j as [|j'].
  - simpl. rewrite list_elem_of_singleton. auto.
  - unfold Dcell, choices_at. rewrite elem_of_where_eq3. intuition lia.
Qed.

Lemma Dcell_nonempty text query (i j : nat) : Dcell text query i j ≠ [].
Proof.
  destruct i as [|i']; [done|]. destruct j as [|j']; [done|].
  unfold Dcell, choices_at. rewrite Ecell_inner. apply where_eq_min3_nonempty.
Qed.

(** A step from a cell of the table of [forward] stays in the table and
    lowers the sum of the coordinates. *)
Lemma follows_in_table text query (c p : cell) :
  in_table text query c →
  follows (forward_tables text query).2 c p →
  in_table text query p ∧ p.1 + p.2 < c.1 + c.2.
Proof.
  intros [Hi Hj] Hf. apply follows_predecessors in Hf as (Hne & ops & HD & Hp).
  destruct c as [i j]. simpl in *.
  rewrite forward_D_at in HD by done. injection HD as <-.
  replace (Z.to_nat i) with (S (Z.to_nat (i - 1))) in Hp by lia.
  apply elem_of_predecessors in Hp. simpl in Hp. unfold in_table.
  destruct Hp as [[Hk ->]|[[Hk ->]|[Hk ->]]]; apply Dcell_ops in Hk; simpl; lia.
Qed.

(** From every cell of the table a path of recorded operations reaches
    row 0. *)
Lemma start_cell_exists text query (c : cell) :
  in_table text query c → ∃ c', start_cell (forward_tables text query).2 c c'.
Proof.
  remember (Z.to_nat (c.1 + c.2)) as k eqn:Hk.
  revert c Hk. induction (lt_wf k) as [k _ IH]. intros c Hk Hc.
  destruct (decide (c.1 = 0)) as [H0|H0].
  - exists c. split; [done | apply rtc_refl].
  - destruct c as [i j]. destruct Hc as [Hi Hj]. simpl in *.
    pose proof (forward_D_at text query i j Hi Hj) as HD.
    destruct (Dcell text query (Z.to_nat i) (Z.to_nat j)) as [|op ops] eqn:Hops;
      [by apply Dcell_nonempty in Hops|].
    assert (∃ p, follows (forward_tables text query).2 (i, j) p) as [p Hp].
    { assert (Hop : op ∈ Dcell text query (Z.to_nat i) (Z.to_nat j)) by (rewrite Hops; left).
      replace (Z.to_nat i) with (S (Z.to_nat (i - 1))) in Hop by lia.
      apply Dcell_ops in Hop. assert (op ∈ op :: ops) by left.
      destruct Hop as [->|[[->| ->] _]]; eexists.
      - by eapply follows_delete.
      - by eapply follows_substitute.
      - by eapply follows_insert. }
    destruct (follows_in_table text query (i, j) p) as [Hp1 Hp2]; [done | done |].
    destruct (IH (Z.to_nat (p.1 + p.2))) with (c := p) as (c' & Hc1 & Hc2);
      [destruct Hp1; simpl in *; lia | done | done |].
    exists c'. split; [done|]. by eapply rtc_l.
Qed.

(** With a budget of at least [backward_budget], [backward] returns the
    start cells. *)
Lemma backward_returns text query (fuel : nat) (c : cell) :
  in_table text query c →
  (backward_budget c ≤ fuel)%nat →
  ∃ S : gset cell,
    backward fuel (forward_tables text query).2 c = Returns S ∧
    ∀ c', c' ∈ S ↔ start_cell (forward_tables text query).2 c c'.
Proof.
  set (D := (forward_tables text query).2).
  revert c. induction fuel as [|fuel IH]; intros c Hc Hfuel.
  { unfold backward_budget in Hfuel. lia. }
  simpl. destruct (Z.eqb_spec c.1 0) as [H0|H0].
  - exists {[ c ]}. split; [done|]. intros c'. rewrite elem_of_singleton. split.
    + intros ->. split; [done | apply rtc_refl].
    + intros [_ Hrtc]. destruct Hrtc as [|c p c' Hf _]; [done|].
      apply follows_predecessors in Hf. by destruct Hf.
  - destruct c as [i j]. pose proof Hc as [Hi Hj]. simpl in H0, Hi, Hj.
    unfold D at 1. rewrite forward_D_at by done. fold D.
    set (ops := Dcell text query (Z.to_nat i) (Z.to_nat j)).
    assert (HD : D !! (i, j) = Some ops) by (by apply forward_D_at).
    destruct (mapM_Returns (backward fuel D)
                (fun p S => ∀ c', c' ∈ S ↔ start_cell D p c')
                (predecessors ops (i, j))) as (sets & -> & Hsets).
    { intros p Hp.
      assert (Hf : follows D (i, j) p).
      { apply follows_predecessors. split; [done|]. by exists ops. }
      destruct (follows_in_table text query (i, j) p Hc Hf) as [Hp1 Hp2].
      apply IH; [done|]. unfold backward_budget in *.
      destruct Hp1. simpl in *. lia. }
    simpl. eexists. split; [done|]. intros c'. rewrite elem_of_union_list. split.
    + intros (X & HX & Hc').
      apply list_elem_of_lookup in HX as [k HX].
      destruct (Forall2_lookup_r _ _ _ _ _ Hsets HX) as (p & Hp & HQ).
      destruct (proj1 (HQ c') Hc') as [Hc1 Hc2]. split; [done|].
      eapply rtc_l; [|done]. apply follows_predecessors. split; [done|].
      exists ops. split; [done|]. by eapply list_elem_of_lookup_2.
    + intros [Hc1 Hrtc].
      inversion Hrtc as [|? p ? Hf Hrtc']; subst; [simpl in Hc1; lia|].
      apply follows_predecessors in Hf as (_ & ops' & HD' & Hp).
      rewrite HD in HD'. injection HD' as <-.
      apply list_elem_of_lookup in Hp as [k Hp].
      destruct (Forall2_lookup_l _ _ _ _ _ Hsets Hp) as (X & HX & HQ).
      exists X. split; [by eapply list_elem_of_lookup_2|]. by apply HQ.
Qed.

(** C7. On the table [D] of [forward] and a cell of the table, [backward]
    returns: every recorded operation leads to a cell of the table whose
    coordinates have a smaller sum, so a budget of nested calls of one more
    than the sum of the coordinates is never used up.  The returned set is the
    same for every such budget, its cells are in row 0, and it holds exactly
    the cells of row 0 that are reached by following, at each cell below
    row 0, the operations recorded in [D]. *)
Theorem backward_total (text query : str) (c : cell) :
  in_table text query c →
  let D := (forward_tables text query).2 in
  (∀ c1 c2, in_table text query c1 → follows D c1 c2 →
            in_table text query c2 ∧ c2.1 + c2.2 < c1.1 + c1.2) ∧
  ∃ S : gset cell,
    (∀ fuel, (backward_budget c ≤ fuel)%nat → backward fuel D c = Returns S) ∧
    (∀ c', c' ∈ S → c'.1 = 0) ∧
    (∀ c', c' ∈ S ↔ c'.1 = 0 ∧ rtc (follows D) c c').
Proof.
  intros Hc D. subst D. split; [apply follows_in_table|].
  destruct (backward_returns text query (backward_budget c) c Hc) as (S & HS & Hmem); [done|].
  exists S. split_and!.
  - intros fuel Hfuel.
    destruct (backward_returns text query fuel c Hc Hfuel) as (S' & HS' & Hmem').
    rewrite HS'. f_equal. apply set_eq. intros c'. by rewrite Hmem, Hmem'.
  - intros c' Hc'. by apply Hmem in Hc' as [? _].
  - exact Hmem.
Qed.

(** ** find *)

Lemma forward_ends_in_range (t : Q) (E : gmap cell nat) (m n l j : Z) (s : Q) :
  (j, s) ∈ forward_ends t E m n l → 0 ≤ j ≤ n.
Proof.
  unfold forward_ends. rewrite list_elem_of_omap. intros (i & Hi & Hf).
  apply elem_of_range in Hi.
  destruct (np_divide _ _); [|done..]. destruct (Qle_bool _ _); [|done].
  injection Hf as <- <-. lia.
Qed.

Lemma elem_of_concat {A} (x : A) (ls : list (list A)) :
  x ∈ concat ls ↔ ∃ l, l ∈ ls ∧ x ∈ l.
Proof.
  rewrite list_elem_of_In, in_concat. split; intros (l & H1 & H2); exists l.
  - by rewrite !list_elem_of_In.
  - by rewrite <- !list_elem_of_In.
Qed.

(** [find] returns: the spans found end at an end column of [forward] and
    start at a start cell of that end. *)
Lemma find_returns (self : TextCorrector) (text query : str) :
  ∃ found,
    find self text query = Returns found ∧
    NoDup found ∧
    ∀ sp s, (sp, s) ∈ found ↔
            (sp.2, s) ∈ (forward self text query).2 ∧
            start_cell (forward_tables text query).2 (len query, sp.2) (0, sp.1).
Proof.
  unfold find. rewrite forward_unfold. cbv beta iota zeta.
  set (D := (forward_tables text query).2).
  cbn [snd].
  set (ends := forward_ends _ _ _ _ _).
  set (start := (λ x : Z * Q, (len query, x.1, x.2)) <$> ends).
  destruct (mapM_Returns
              (λ x : cell * Q,
                 ys ← backward (backward_budget x.1) D x.1;
                 Returns ((λ y : cell, (y.2, x.1.2, x.2)) <$> elements ys))
              (fun x l => ∀ y, y ∈ l ↔ ∃ c, start_cell D x.1 c ∧ y = (c.2, x.1.2, x.2))
              start) as (found & -> & Hfound).
  { intros x Hx. unfold start in Hx. apply list_elem_of_fmap in Hx as ([j s] & -> & Hjs).
    cbn [fst snd]. apply forward_ends_in_range in Hjs. unfold D.
    destruct (backward_returns text query (backward_budget (len query, j)) (len query, j))
      as (S & -> & HS); [unfold in_table, len in *; simpl; lia | done |].
    simpl. eexists. split; [done|]. intros y.
    rewrite list_elem_of_fmap. split.
    - intros (c & -> & Hc). exists c. split; [|done]. apply HS. by apply elem_of_elements.
    - intros (c & Hc & ->). exists c. split; [done|]. apply elem_of_elements. by apply HS. }
  simpl. eexists. split; [done|]. split; [apply NoDup_remove_dups|].
  intros sp s. rewrite elem_of_remove_dups, elem_of_concat. split.
  - intros (l & Hl & Hin).
    apply list_elem_of_lookup in Hl as [k Hl].
    destruct (Forall2_lookup_r _ _ _ _ _ Hfound Hl) as (x & Hx & HQ).
    destruct (proj1 (HQ _) Hin) as (c & [Hc0 Hc] & Heq).
    apply list_elem_of_lookup_2 in Hx.
    unfold start in Hx. apply list_elem_of_fmap in Hx as ([j s'] & -> & Hjs).
    simpl in *. injection Heq as -> ->. simpl. split; [done|].
    destruct c as [c1 c2]. simpl in *. by subst c1.
  - intros (Hend & Hstart).
    assert (Hx : (len query, sp.2, s) ∈ start).
    { unfold start. apply list_elem_of_fmap. by exists (sp.2, s). }
    apply list_elem_of_lookup in Hx as [k Hx].
    destruct (Forall2_lookup_l _ _ _ _ _ Hfound Hx) as (l & Hl & HQ).
    exists l. split; [by eapply list_elem_of_lookup_2|].
    apply HQ. exists (0, sp.1). simpl. split; [done|]. by destruct sp.
Qed.

Lemma omap_all_None {A B} (f : A → option B) (l : list A) :
  (∀ x, x ∈ l → f x = None) → omap f l = [].
Proof.
  intros Hf. induction l as [|x l IH]; [done|].
  cbn [omap list_omap]. rewrite Hf by left. apply IH.
  intros y Hy. apply Hf. by right.
Qed.

(** On an empty query the loops of [forward] do nothing and every score is
    the quotient 0/0, which is not at most the threshold. *)
Lemma forward_ends_empty_query (t : Q) (text : str) :
  forward_ends t (forward_tables text []).1 0 (len text) 0 = [].
Proof.
  assert (HE : ∀ c, (forward_tables text []).1 !!! c = 0%nat).
  { intros c. unfold forward_tables.
    change (len []) with 0. rewrite (range_empty 1 (0 + 1)) by lia.
    apply np_zeros_lookup. }
  apply omap_all_None. intros j _. by rewrite HE.
Qed.

(** C6, as the code has it. For a zero-length query [find] returns the empty
    set, for every text and threshold: the division of the cost 0 by the
    length 0 leaves a value that is not a number, which fails the comparison
    with the threshold at every column.  Nothing is raised. *)
Theorem find_empty_query (self : TextCorrector) (text : str) :
  find self text [] = Returns [].
Proof.
  unfold find. rewrite forward_unfold. cbv beta iota zeta.
  change (len (@nil ascii)) with 0. by rewrite forward_ends_empty_query.
Qed.

(** ** The cost matrix and the edit distance *)

Lemma item_drop (s : str) (a k : nat) :
  item (drop a s) (Z.of_nat k) = item s (Z.of_nat (a + k)).
Proof. unfold item. by rewrite !Nat2Z.id, lookup_drop. Qed.

(** The distance of prefixes looks at the characters of the prefixes only. *)
Lemma lev_ext (q s s' : str) (i j : nat) :
  (∀ k, (k < j)%nat → item s (Z.of_nat k) = item s' (Z.of_nat k)) →
  lev q s i j = lev q s' i j.
Proof.
  revert j. induction i as [|i' IHi]; intros j Hs; [done|].
  induction j as [|j' IHj]; [done|].
  rewrite !lev_inner.
  rewrite (IHi (S j')) by done.
  rewrite (IHi j') by (intros; apply Hs; lia).
  rewrite IHj by (intros; apply Hs; lia).
  by rewrite (Hs j') by lia.
Qed.

Lemma min3_mono (a b c a' b' c' : nat) :
  (a ≤ a')%nat → (b ≤ b')%nat → (c ≤ c')%nat → (min3 a b c ≤ min3 a' b' c')%nat.
Proof. unfold min3. lia. Qed.

Lemma min3_cases (a b c : nat) : min3 a b c = a ∨ min3 a b c = b ∨ min3 a b c = c.
Proof. unfold min3. lia. Qed.

Lemma min3_le (a b c : nat) :
  (min3 a b c ≤ a)%nat ∧ (min3 a b c ≤ b)%nat ∧ (min3 a b c ≤ c)%nat.
Proof. unfold min3. lia. Qed.

(** One more character of the query costs at most one deletion. *)
Lemma lev_delete (q s : str) (i j : nat) : (lev q s (S i) j ≤ lev q s i j + 1)%nat.
Proof.
  destruct j as [|j'].
  - rewrite !lev_col0. lia.
  - rewrite lev_inner. pose proof (min3_le (lev q s i (S j') + 1)
      (lev q s i j' + distance (item q (Z.of_nat i)) (item s (Z.of_nat j')))
      (lev q s (S i) j' + 1)). lia.
Qed.

(** An entry of [E] is at most the distance to any substring that ends at
    its column. *)
Lemma Ecell_le_lev (text query : str) (i j a : nat) :
  (a ≤ j)%nat → (Ecell text query i j ≤ lev query (drop a text) i (j - a))%nat.
Proof.
  revert j a. induction i as [|i' IHi]; intros j a Ha; [simpl; lia|].
  induction j as [|j' IHj].
  - rewrite Ecell_col0. replace (0 - a)%nat with 0%nat by lia. by rewrite lev_col0.
  - destruct (decide (a = S j')) as [->|Hne].
    + replace (S j' - S j')%nat with 0%nat by lia. rewrite lev_col0, Ecell_inner.
      pose proof (IHi (S j') (S j') (le_n _)) as H.
      replace (S j' - S j')%nat with 0%nat in H by lia. rewrite lev_col0 in H.
      pose proof (min3_le (Ecell text query i' (S j') + 1)
        (Ecell text query i' j'
         + distance (item query (Z.of_nat i')) (item text (Z.of_nat j')))
        (Ecell text query (S i') j' + 1)). lia.
    + replace (S j' - a)%nat with (S (j' - a)) by lia.
      rewrite Ecell_inner, lev_inner. apply min3_mono.
      * pose proof (IHi (S j') a Ha) as H.
        replace (S j' - a)%nat with (S (j' - a)) in H by lia. lia.
      * pose proof (IHi j' a) as H. rewrite item_drop.
        replace (a + (j' - a))%nat with j' by lia.
        assert (a ≤ j')%nat by lia. specialize (H ltac:(lia)). lia.
      * assert (a ≤ j')%nat as H by lia. specialize (IHj H). lia.
Qed.

(** An entry of [E] is the distance to some substring that ends at its
    column. *)
Lemma Ecell_attained (text query : str) (i j : nat) :
  ∃ a, (a ≤ j)%nat ∧ Ecell text query i j = lev query (drop a text) i (j - a).
Proof.
  revert j. induction i as [|i' IHi]; intros j.
  { exists j. split; [done|]. by replace (j - j)%nat with 0%nat by lia. }
  induction j as [|j' IHj].
  { exists 0%nat. split; [done|]. by rewrite Ecell_col0, lev_col0. }
  pose proof (Ecell_inner text query i' j') as Hin.
  destruct (min3_cases (Ecell text query i' (S j') + 1)
              (Ecell text query i' j'
               + distance (item query (Z.of_nat i')) (item text (Z.of_nat j')))
              (Ecell text query (S i') j' + 1)) as [Hc|[Hc|Hc]];
    rewrite Hc in Hin.
  - destruct (IHi (S j')) as (a & Ha & Heq). exists a. split; [done|].
    pose proof (Ecell_le_lev text query (S i') (S j') a Ha).
    pose proof (lev_delete query (drop a text) i' (S j' - a)). lia.
  - destruct (IHi j') as (a & Ha & Heq). exists a. split; [lia|].
    pose proof (Ecell_le_lev text query (S i') (S j') a ltac:(lia)) as Hle.
    replace (S j' - a)%nat with (S (j' - a)) in * by lia.
    rewrite lev_inner in *. rewrite item_drop in *.
    replace (a + (j' - a))%nat with j' in * by lia.
    pose proof (min3_le (lev query (drop a text) i' (S (j' - a)) + 1)
      (lev query (drop a text) i' (j' - a)
       + distance (item query (Z.of_nat i')) (item text (Z.of_nat j')))
      (lev query (drop a text) (S i') (j' - a) + 1)). lia.
  - destruct IHj as (a & Ha & Heq). exists a. split; [lia|].
    pose proof (Ecell_le_lev text query (S i') (S j') a ltac:(lia)) as Hle.
    replace (S j' - a)%nat with (S (j' - a)) in * by lia.
    rewrite lev_inner in *.
    pose proof (min3_le (lev query (drop a text) i' (S (j' - a)) + 1)
      (lev query (drop a text) i' (j' - a)
       + distance (item query (Z.of_nat i')) (item (drop a text) (Z.of_nat (j' - a))))
      (lev query (drop a text) (S i') (j' - a) + 1)). lia.
Qed.

(** ** The best substring *)

Lemma edit_distance_substring (text query : str) (a b : nat) :
  (a ≤ b)%nat → (b ≤ length text)%nat →
  edit_distance query (substring text a b) = lev query (drop a text) (length query) (b - a).
Proof.
  intros Hab Hb. unfold edit_distance, substring.
  rewrite length_take, length_drop.
  replace ((b - a) `min` (length text - a))%nat with (b - a)%nat by lia.
  apply lev_ext. intros k Hk. unfold item.
  by rewrite !Nat2Z.id, lookup_take_lt.
Qed.

Lemma elem_of_substring_bounds (n a b : nat) :
  (a, b) ∈ substring_bounds n ↔ (a ≤ b)%nat ∧ (b ≤ n)%nat.
Proof.
  unfold substring_bounds. rewrite list_elem_of_bind. split.
  - intros (a' & Hb & Ha). apply list_elem_of_bind in Hb as (b' & Heq & Hb).
    apply list_elem_of_singleton in Heq. injection Heq as -> ->.
    apply elem_of_seq in Ha, Hb. lia.
  - intros [Hab Hb]. exists a. split; [|apply elem_of_seq; lia].
    apply list_elem_of_bind. exists b. split; [by apply list_elem_of_singleton|].
    apply elem_of_seq. lia.
Qed.

Lemma foldr_min_le (b : nat) (l : list nat) :
  (foldr Nat.min b l ≤ b)%nat ∧ ∀ x, x ∈ l → (foldr Nat.min b l ≤ x)%nat.
Proof.
  induction l as [|y l [IH1 IH2]]; simpl.
  - split; [done|]. intros x Hx. by apply elem_of_nil in Hx.
  - split; [lia|]. intros x Hx. apply elem_of_cons in Hx as [->|Hx]; [lia|].
    specialize (IH2 x Hx). lia.
Qed.

Lemma foldr_min_attained (b : nat) (l : list nat) :
  foldr Nat.min b l = b ∨ foldr Nat.min b l ∈ l.
Proof.
  induction l as [|y l IH]; simpl; [by left|].
  destruct (Nat.min_spec y (foldr Nat.min b l)) as [[_ ->]|[_ ->]].
  - right. by left.
  - destruct IH as [?|?]; [by left|]. right. by right.
Qed.

(** [best_distance] is a lower bound of the distances to the substrings. *)
Lemma best_distance_le (text query : str) (a b : nat) :
  (a ≤ b)%nat → (b ≤ length text)%nat →
  (best_distance text query ≤ edit_distance query (substring text a b))%nat.
Proof.
  intros Hab Hb. unfold best_distance. apply foldr_min_le.
  apply list_elem_of_fmap. exists (a, b). split; [done|].
  by apply elem_of_substring_bounds.
Qed.

(** [best_distance] is the distance to one of the substrings. *)
Lemma best_distance_attained (text query : str) :
  ∃ a b, (a ≤ b)%nat ∧ (b ≤ length text)%nat ∧
         best_distance text query = edit_distance query (substring text a b).
Proof.
  unfold best_distance.
  destruct (foldr_min_attained (edit_distance query [])
              ((λ ab : nat * nat, edit_distance query (substring text ab.1 ab.2))
                 <$> substring_bounds (length text))) as [->| Hin].
  - exists 0%nat, 0%nat. split; [done|]. split; [lia|]. done.
  - apply list_elem_of_fmap in Hin as ([a b] & -> & Hab).
    apply elem_of_substring_bounds in Hab. exists a, b. simpl. tauto.
Qed.

(** The least entry of the last row of [E] is the least distance between the
    query and a substring of the text. *)
Lemma best_distance_in_last_row (text query : str) :
  ∃ j, (j ≤ length text)%nat ∧
       Ecell text query (length query) j = best_distance text query.
Proof.
  destruct (best_distance_attained text query) as (a & b & Hab & Hb & Hbest).
  exists b. split; [done|].
  rewrite edit_distance_substring in Hbest by done.
  pose proof (Ecell_le_lev text query (length query) b a Hab) as Hle.
  destruct (Ecell_attained text query (length query) b) as (a' & Ha' & Heq).
  pose proof (best_distance_le text query a' b Ha' Hb) as Hlow.
  rewrite edit_distance_substring in Hlow by done. lia.
Qed.

Lemma last_row_ge_best_distance (text query : str) (j : nat) :
  (j ≤ length text)%nat →
  (best_distance text query ≤ Ecell text query (length query) j)%nat.
Proof.
  intros Hj. destruct (Ecell_attained text query (length query) j) as (a & Ha & ->).
  rewrite <- edit_distance_substring by done. by apply best_distance_le.
Qed.

(** C3. For a non-empty query, if the threshold is at least the least
    normalized edit distance between the query and a substring of the text
    (deletions and insertions at cost 1, substitutions at cost [distance],
    divided by the length of the query), then [find] returns, and its result
    holds a span whose score is that least normalized distance. *)
Theorem find_contains_best (self : TextCorrector) (text query : str) :
  query ≠ [] →
  (normalized (best_distance text query) query <= threshold self)%Q →
  ∃ found sp,
    find self text query = Returns found ∧
    (sp, normalized (best_distance text query) query) ∈ found.
Proof.
  intros Hq Hle.
  destruct (find_returns self text query) as (found & Hfind & _ & Hmem).
  destruct (best_distance_in_last_row text query) as (j & Hj & Hbest).
  destruct (start_cell_exists text query (len query, Z.of_nat j)) as ([c1 c2] & Hc0 & Hc).
  { unfold in_table, len. simpl. lia. }
  simpl in Hc0. subst c1.
  exists found, (c2, Z.of_nat j). split; [done|].
  apply Hmem. simpl. split; [|done].
  rewrite forward_unfold. simpl.
  apply elem_of_forward_ends; [by apply len_nonzero|].
  split; [unfold len; lia|]. split; [|done].
  unfold normalized. f_equal.
  unfold len at 1. rewrite forward_tables_E by done. by rewrite Hbest.
Qed.

(** ** Sorting *)

Lemma ordered_nil {A} (R : A → A → Prop) : ordered R [].
Proof. intros i j x y _ Hx. by rewrite lookup_nil in Hx. Qed.

Lemma ordered_cons {A} (R : A → A → Prop) (x : A) (l : list A) :
  ordered R (x :: l) ↔ (∀ y, y ∈ l → R x y) ∧ ordered R l.
Proof.
  split.
  - intros H. split.
    + intros y Hy. apply list_elem_of_lookup in Hy as [k Hk].
      apply (H 0%nat (S k)); [lia | done | done].
    + intros i j a b Hij Ha Hb. apply (H (S i) (S j)); [lia | done | done].
  - intros [Hx Hl] i j a b Hij Ha Hb.
    destruct j as [|j]; [lia|]. simpl in Hb.
    destruct i as [|i]; simpl in Ha.
    + injection Ha as <-. apply Hx. by eapply list_elem_of_lookup_2.
    + apply (Hl i j); [lia | done | done].
Qed.

Lemma insert_sorted_perm {A} (le : A → A → bool) (x : A) (l : list A) :
  insert_sorted le x l ≡ₚ x :: l.
Proof.
  induction l as [|y l IH]; simpl; [done|].
  destruct (le x y); [done|]. rewrite IH. apply Permutation_swap.
Qed.

Lemma sorted_by_perm {A} (le : A → A → bool) (l : list A) : sorted_by le l ≡ₚ l.
Proof.
  induction l as [|x l IH]; simpl; [done|].
  unfold sorted_by in *. simpl. by rewrite insert_sorted_perm, IH.
Qed.

Section sorted_by.
Context {A : Type} (le : A → A → bool) (R : A → A → Prop).
Hypothesis le_true : ∀ x y, le x y = true → R x y.
Hypothesis le_false : ∀ x y, le x y = false → R y x.
Hypothesis R_trans : ∀ x y z, R x y → R y z → R x z.

Lemma insert_sorted_ordered (x : A) (l : list A) :
  ordered R l → ordered R (insert_sorted le x l).
Proof.
  induction l as [|y l IH]; intros Hl; simpl.
  - apply ordered_cons. split; [|apply ordered_nil].
    intros y Hy. by apply elem_of_nil in Hy.
  - apply ordered_cons in Hl as [Hy Hl].
    destruct (le x y) eqn:Hxy.
    + apply ordered_cons. split.
      * intros z Hz. apply elem_of_cons in Hz as [->|Hz]; [by apply le_true|].
        eapply R_trans; [by apply le_true | by apply Hy].
      * by apply ordered_cons.
    + apply ordered_cons. split; [|by apply IH].
      intros z Hz. rewrite insert_sorted_perm in Hz.
      apply elem_of_cons in Hz as [->|Hz]; [by apply le_false | by apply Hy].
Qed.

Lemma sorted_by_ordered (l : list A) : ordered R (sorted_by le l).
Proof.
  induction l as [|x l IH]; [apply ordered_nil|].
  unfold sorted_by in *. simpl. by apply insert_sorted_ordered.
Qed.
End sorted_by.

(** ** choose_positions *)

Lemma intersect_iff (a b c d : Z) : intersect (a, b) (c, d) = true ↔ a < d ∧ c < b.
Proof. unfold intersect. simpl. rewrite andb_true_iff, !Z.ltb_lt. lia. Qed.

Lemma intersect_sym (x y : span) : intersect x y = intersect y x.
Proof. unfold intersect. apply andb_comm. Qed.

Lemma pairwise_disjoint_cons (x : span) (l : list span) :
  pairwise_disjoint (x :: l) ↔ (∀ y, y ∈ l → intersect x y = false) ∧ pairwise_disjoint l.
Proof.
  split.
  - intros H. split.
    + intros y Hy. apply list_elem_of_lookup in Hy as [k Hk].
      apply (H 0%nat (S k)); [lia | done | done].
    + intros i j a b Hij Ha Hb. apply (H (S i) (S j)); [lia | done | done].
  - intros [Hx Hl] i j a b Hij Ha Hb.
    destruct i as [|i], j as [|j]; simpl in Ha, Hb; [lia | | |].
    + injection Ha as <-. apply Hx. by eapply list_elem_of_lookup_2.
    + injection Hb as <-. rewrite intersect_sym. apply Hx. by eapply list_elem_of_lookup_2.
    + apply (Hl i j); [lia | done | done].
Qed.

Lemma pairwise_disjoint_nil : pairwise_disjoint [].
Proof. intros i j x y _ Hx. by rewrite lookup_nil in Hx. Qed.

Lemma pairwise_disjoint_perm (l l' : list span) :
  l ≡ₚ l' → pairwise_disjoint l → pairwise_disjoint l'.
Proof.
  induction 1 as [|x l l' Hp IH|x y l|l l' l'' _ IH1 _ IH2]; intros H.
  - done.
  - apply pairwise_disjoint_cons in H as [Hx Hl]. apply pairwise_disjoint_cons.
    split; [|by apply IH]. intros y Hy. apply Hx. by rewrite Hp.
  - apply pairwise_disjoint_cons in H as [Hy H].
    apply pairwise_disjoint_cons in H as [Hx Hl].
    apply pairwise_disjoint_cons. split.
    + intros z Hz. apply elem_of_cons in Hz as [->|Hz].
      * rewrite intersect_sym. apply Hy. by left.
      * by apply Hx.
    + apply pairwise_disjoint_cons. split; [|done].
      intros z Hz. apply Hy. by right.
  - by apply IH2, IH1.
Qed.

Lemma select_positions_snoc (protected : list span) (l : list (span * Q)) (p : span * Q) :
  select_positions protected (l ++ [p]) =
  if existsb (intersect p.1) (select_positions protected l ++ protected)
  then select_positions protected l
  else select_positions protected l ++ [p.1].
Proof. unfold select_positions. by rewrite foldl_snoc. Qed.

Lemma existsb_false_iff {A} (f : A → bool) (l : list A) :
  existsb f l = false ↔ ∀ y, y ∈ l → f y = false.
Proof.
  induction l as [|x l IH]; simpl.
  - split; [|done]. intros _ y Hy. by apply elem_of_nil in Hy.
  - rewrite orb_false_iff, IH. split.
    + intros [Hx Hl] y Hy. apply elem_of_cons in Hy as [->|Hy]; auto.
    + intros H. split; [apply H; by left|]. intros y Hy. apply H. by right.
Qed.

(** What the greedy loop keeps is pairwise disjoint and clear of the
    protected intervals. *)
Lemma select_positions_disjoint (protected : list span) (l : list (span * Q)) :
  pairwise_disjoint (select_positions protected l) ∧
  ∀ x y, x ∈ select_positions protected l → y ∈ protected → intersect x y = false.
Proof.
  induction l as [|p l [IH1 IH2]] using rev_ind.
  - split; [apply pairwise_disjoint_nil|]. intros x y Hx. by apply elem_of_nil in Hx.
  - rewrite select_positions_snoc.
    destruct (existsb _ _) eqn:Hex; [done|].
    rewrite existsb_false_iff in Hex. split.
    + apply (pairwise_disjoint_perm (p.1 :: select_positions protected l)).
      { by rewrite Permutation_app_comm. }
      apply pairwise_disjoint_cons. split; [|done].
      intros y Hy. apply Hex. apply elem_of_app. by left.
    + intros x y Hx Hy. apply elem_of_app in Hx as [Hx|Hx]; [by apply IH2|].
      apply list_elem_of_singleton in Hx as ->. apply Hex. apply elem_of_app. by right.
Qed.

Lemma ordered_impl {A} (R R' : A → A → Prop) (l : list A) :
  (∀ x y, R x y → R' x y) → ordered R l → ordered R' l.
Proof. intros HR Hl i j x y Hij Hx Hy. eapply HR, Hl; eauto. Qed.

Lemma sorted_pairs_ascending (l : list span) : ascending (sorted_by pair_le l).
Proof.
  apply (ordered_impl (fun x y : span => x.1 < y.1 ∨ (x.1 = y.1 ∧ x.2 ≤ y.2))).
  { intros x y. lia. }
  apply sorted_by_ordered; unfold pair_le.
  - intros x y H. apply orb_true_iff in H as [H|H]; [left; lia|].
    apply andb_true_iff in H as [H1 H2]. right. lia.
  - intros x y H. apply orb_false_iff in H as [H1 H2].
    apply andb_false_iff in H2. lia.
  - intros x y z. lia.
Qed.

Lemma sorted_scores_best_first (l : list (span * Q)) :
  best_first (sorted_by (fun x y : span * Q => Qle_bool x.2 y.2) l).
Proof.
  apply sorted_by_ordered.
  - intros x y H. by apply Qle_bool_iff.
  - intros x y H. apply Qlt_le_weak, Qnot_le_lt. intros Hle.
    apply Qle_bool_iff in Hle. congruence.
  - intros x y z. apply Qle_trans.
Qed.

(** C5. For every list of candidates (the set of pairs of a span and a
    score, in the order of its iteration) and every list of protected
    intervals: the list that [choose_positions] returns is ascending by
    start, no two of its spans intersect, and none of them intersects a
    protected interval, where [(a, b)] and [(c, d)] intersect exactly when
    [a < d] and [c < b].  The candidates are gone through in ascending order
    of score, and the candidate at each place of that order is kept exactly
    when it intersects neither a span kept before it nor a protected
    interval; what is returned is what the loop kept, sorted. *)
Theorem choose_positions_spec (protected : list span) (candidates : list (span * Q)) :
  let positions := sorted_by (fun x y : span * Q => Qle_bool x.2 y.2) candidates in
  let result := choose_from protected candidates in
  (∀ a b c d, intersect (a, b) (c, d) = true ↔ a < d ∧ c < b) ∧
  ascending result ∧
  pairwise_disjoint result ∧
  (∀ x y, x ∈ result → y ∈ protected → intersect x y = false) ∧
  positions ≡ₚ candidates ∧
  best_first positions ∧
  result ≡ₚ select_positions protected positions ∧
  (∀ k p, positions !! k = Some p →
     let kept := select_positions protected (take k positions) in
     ((∀ y, y ∈ kept ++ protected → intersect p.1 y = false) →
      select_positions protected (take (S k) positions) = kept ++ [p.1]) ∧
     ((∃ y, y ∈ kept ++ protected ∧ intersect p.1 y = true) →
      select_positions protected (take (S k) positions) = kept)) ∧
  (∀ self text query,
     ∃ found, find self text query = Returns found ∧
              choose_positions self text query = Returns (choose_from (changed self) found)).
Proof.
  intros positions result.
  destruct (select_positions_disjoint protected positions) as [Hpd Hprot].
  assert (Hperm : result ≡ₚ select_positions protected positions)
    by apply sorted_by_perm.
  split_and!.
  - apply intersect_iff.
  - apply sorted_pairs_ascending.
  - eapply pairwise_disjoint_perm; [symmetry; exact Hperm | done].
  - intros x y Hx Hy. rewrite Hperm in Hx. by apply Hprot.
  - apply sorted_by_perm.
  - apply sorted_scores_best_first.
  - exact Hperm.
  - intros k p Hk kept. rewrite (take_S_r _ _ _ Hk), select_positions_snoc. fold kept.
    split.
    + intros Hfree. apply existsb_false_iff in Hfree. by rewrite Hfree.
    + intros (y & Hy & Hint).
      destruct (existsb (intersect p.1) (kept ++ protected)) eqn:Hex; [done|].
      rewrite existsb_false_iff in Hex. rewrite (Hex y Hy) in Hint. done.
  - intros self text query.
    destruct (find_returns self text query) as (found & Hfind & _).
    exists found. split; [done|]. unfold choose_positions. by rewrite Hfind.
Qed.

(** ** distance *)

(** C8. [distance] is symmetric; it is 0 on equal characters (blank or
    not); it is 0 when both characters are blanks (a space or a newline) or
    when they are equal after [lower], and 1 otherwise; its value is 0 or
    1. *)
Theorem distance_spec (x y : ascii) :
  distance x y = distance y x ∧
  distance x x = 0%nat ∧
  distance x y =
    (if (is_blank x && is_blank y) || Ascii.eqb (lower x) (lower y) then 0 else 1)%nat ∧
  (distance x y = 0%nat ∨ distance x y = 1%nat).
Proof.
  unfold distance. split_and!.
  - rewrite (andb_comm (is_blank y)), (Ascii.eqb_sym (lower y)). done.
  - rewrite Ascii.eqb_refl. by destruct (is_blank x && is_blank x).
  - destruct (is_blank x && is_blank y); [done|]. by destruct (Ascii.eqb _ _).
  - destruct (is_blank x && is_blank y); [by left|]. destruct (Ascii.eqb _ _); auto.
Qed.

(** ** load *)

(** C9. When [load] returns, on a list, a set or the path of a file that
    can be read, the stored words are distinct and sorted by descending
    length; they are the words given (the lines of the file), and the
    threshold and the protected intervals are left as they were. *)
Theorem load_stores_vocabulary (fs : str → option str) (self self' : TextCorrector)
    (input_words : load_input) :
  load fs self input_words = Returns self' →
  NoDup (words self') ∧
  longest_first (words self') ∧
  (∀ w, w ∈ words self' ↔
        match input_words with
        | InputList l => w ∈ l
        | InputSet s => w ∈ s
        | InputPath path => ∃ content, fs path = Some content ∧ w ∈ splitlines content
        | InputOther => False
        end) ∧
  threshold self' = threshold self ∧ changed self' = changed self.
Proof.
  intros Hload. unfold load in Hload.
  assert (Hsort : ∀ ws : list str,
            longest_first (sorted_by (λ x y : str, len y <=? len x) ws)).
  { intros ws. apply sorted_by_ordered; unfold len.
    - intros x y H. apply Z.leb_le in H. lia.
    - intros x y H. apply Z.leb_gt in H. lia.
    - intros x y z. lia. }
  destruct input_words as [l|s|path|]; simpl in Hload.
  - injection Hload as <-. simpl. split_and!; [| apply Hsort | | done | done].
    + rewrite sorted_by_perm. apply NoDup_elements.
    + intros w. rewrite sorted_by_perm, elem_of_elements. apply elem_of_list_to_set.
  - injection Hload as <-. simpl. split_and!; [| apply Hsort | | done | done].
    + rewrite sorted_by_perm. apply NoDup_elements.
    + intros w. rewrite sorted_by_perm. apply elem_of_elements.
  - destruct (fs path) as [content|] eqn:Hfs; simpl in Hload; [|done].
    injection Hload as <-. simpl. split_and!; [| apply Hsort | | done | done].
    + rewrite sorted_by_perm. apply NoDup_elements.
    + intros w. rewrite sorted_by_perm, elem_of_elements, elem_of_list_to_set.
      split; [by exists content|]. by intros (content' & [= <-] & Hw).
  - done.
Qed.

(** ** correct on the empty text *)

(** A score of 1 is not at most a threshold below 1. *)
Lemma full_cost_over_threshold (t : Q) (m : nat) :
  (t < 1)%Q → m ≠ 0%nat →
  Qle_bool (Z.of_nat m # Z.to_pos (Z.of_nat m)) t = false.
Proof.
  intros Ht Hm. destruct (Qle_bool _ t) eqn:Hle; [|done].
  apply Qle_bool_iff in Hle. unfold Qle, Qlt in *. simpl in *.
  rewrite Z2Pos.id in Hle by lia. nia.
Qed.

(** On the empty text no column passes the threshold: the only column is
    column 0, where the cost is the length of the query. *)
Lemma forward_ends_empty_text (t : Q) (query : str) :
  (t < 1)%Q →
  forward_ends t (forward_tables [] query).1 (len query) (len (@nil ascii)) (len query) = [].
Proof.
  intros Ht. apply omap_all_None. intros j Hj.
  apply elem_of_range in Hj. change (len (@nil ascii)) with 0 in Hj.
  assert (j = 0) as -> by lia.
  unfold np_divide. destruct (Z.eqb_spec (len query) 0) as [Hq|Hq].
  - by destruct (Nat.eqb _ 0).
  - rewrite forward_E_at by (unfold len in *; simpl; lia).
    rewrite Ecell_col0. unfold len at 1 2. rewrite Nat2Z.id.
    rewrite full_cost_over_threshold; [done | done | unfold len in Hq; lia].
Qed.

Lemma find_empty_text (self : TextCorrector) (query : str) :
  (threshold self < 1)%Q → find self [] query = Returns [].
Proof.
  intros Ht. unfold find. rewrite forward_unfold. cbv beta iota zeta.
  by rewrite forward_ends_empty_text.
Qed.

(** One round on the empty text changes nothing. *)
Lemma correct_word_empty_text (self : TextCorrector) (query : str) :
  (threshold self < 1)%Q → correct_word (self, []) query = Returns (self, []).
Proof.
  intros Ht. unfold correct_word, choose_positions. by rewrite find_empty_text.
Qed.

(** C10. For every vocabulary and every threshold below 1, [correct] on
    the empty string returns the empty string and raises nothing: no end
    column passes the threshold, so that no position is chosen, for any
    word; the list of protected intervals is left empty. *)
Theorem correct_empty_text (self : TextCorrector) :
  (threshold self < 1)%Q →
  correct self [] = Returns (set_changed [] self, []) ∧
  correct_text self [] = Returns [] ∧
  ∀ query, query ∈ words self → find (set_changed [] self) [] query = Returns [].
Proof.
  intros Ht.
  assert (Hloop : ∀ (ws : list str) (s : TextCorrector), (threshold s < 1)%Q →
            foldl (λ acc query, st ← acc; correct_word st query) (Returns (s, [])) ws
            = Returns (s, [])).
  { induction ws as [|w ws IH]; intros s Hs; [done|].
    cbn [foldl].
    change (st ← Returns (s, []); correct_word st w) with (correct_word (s, []) w).
    rewrite correct_word_empty_text by done. by apply IH. }
  assert (Hc : correct self [] = Returns (set_changed [] self, [])).
  { unfold correct. by rewrite Hloop. }
  split_and!; [done | |].
  - unfold correct_text. by rewrite Hc.
  - intros query _. by apply find_empty_text.
Qed.

(** ** The examples *)

(** C2, as the code has it. With the vocabulary [{"hello"}] and the
    threshold 0.3, [correct] turns "helo world" into " hello world": the
    word is put in with a space on each side and only the runs of spaces are
    collapsed, so the space in front of the word stays. *)
Theorem correct_helo_world :
  load (fun _ => None) (init (3 # 10)) (InputList [hello]) = Returns hello_corrector ∧
  correct_text hello_corrector helo_world
  = Returns (list_ascii_of_string " hello world").
Proof. split; vm_compute; reflexivity. Qed.

(** C2, as it is stated, fails: the result is not "hello world". *)
Lemma correct_helo_world_not_stripped :
  correct_text hello_corrector helo_world
  ≠ Returns (list_ascii_of_string "hello world").
Proof. vm_compute. discriminate. Qed.

(** C6, as it is stated, fails: for the empty query nothing is raised. *)
Lemma find_empty_query_raises_nothing :
  ¬ ∃ e, find hello_corrector helo_world [] = Raises e.
Proof. intros [e He]. vm_compute in He. discriminate. Qed.

(** C1 fails on an empty list of protected intervals. [correct] on
    "helo world" calls [add_positions] with the span [(0, 4)] of "helo" and
    the width 7: the span gets two intervals, [(0, 7)] and [(3, 10)], which
    intersect.  The slice [positions[not self.changed:]] is taken after the
    first interval was appended, so that it starts at 0, and the first
    position is placed once more. *)
Theorem add_positions_first_span_twice :
  changed (add_positions (set_changed [] hello_corrector) [(0, 4)] 7) = [(0, 7); (3, 10)] ∧
  intersect (0, 7) (3, 10) = true ∧
  ¬ pairwise_disjoint (changed (add_positions (set_changed [] hello_corrector) [(0, 4)] 7)) ∧
  (st ← correct hello_corrector helo_world; Returns (changed st.1))
  = Returns [(0, 7); (3, 10)].
Proof.
  split_and!; [done | done | | vm_compute; reflexivity].
  intros H. specialize (H 0%nat 1%nat (0, 7) (3, 10)). simpl in H.
  discriminate H; done.
Qed.

(** ** The theorems at "helo world" and "hello" *)

Lemma forward_computes_tables_witness :
  hello ≠ [] ∧
  (∀ j s, (j, s) ∈ (forward hello_corrector helo_world hello).2 ↔
          0 ≤ j ≤ len helo_world ∧
          s = (Z.of_nat ((forward_tables helo_world hello).1 !!! (len hello, j))
               # Z.to_pos (len hello)) ∧
          (s <= threshold hello_corrector)%Q).
Proof.
  split; [discriminate|].
  apply (forward_computes_tables hello_corrector helo_world hello). discriminate.
Defined.

Lemma find_contains_best_witness :
  hello ≠ [] ∧
  (normalized (best_distance helo_world hello) hello <= threshold hello_corrector)%Q ∧
  ∃ found sp,
    find hello_corrector helo_world hello = Returns found ∧
    (sp, normalized (best_distance helo_world hello) hello) ∈ found.
Proof.
  split; [discriminate|]. split; [apply Qle_bool_iff; vm_compute; reflexivity|].
  apply (find_contains_best hello_corrector helo_world hello); [discriminate|].
  apply Qle_bool_iff. vm_compute. reflexivity.
Defined.

Lemma backward_total_witness :
  in_table helo_world hello (5, 4) ∧
  ∃ S : gset cell,
    (∀ fuel, (backward_budget (5, 4)%Z ≤ fuel)%nat →
             backward fuel (forward_tables helo_world hello).2 (5, 4) = Returns S) ∧
    (∀ c', c' ∈ S → c'.1 = 0) ∧
    (∀ c', c' ∈ S ↔ c'.1 = 0 ∧ rtc (follows (forward_tables helo_world hello).2) (5, 4) c').
Proof.
  assert (H : in_table helo_world hello (5, 4)) by (unfold in_table, len; simpl; lia).
  split; [exact H|].
  exact (proj2 (backward_total helo_world hello (5, 4) H)).
Defined.

Lemma load_stores_vocabulary_witness :
  load (fun _ => None) (init (3 # 10)) (InputList [hello; hello]) = Returns hello_corrector ∧
  NoDup (words hello_corrector) ∧
  longest_first (words hello_corrector).
Proof.
  assert (H : load (fun _ => None) (init (3 # 10)) (InputList [hello; hello])
              = Returns hello_corrector) by (vm_compute; reflexivity).
  split; [exact H|].
  split; [exact (proj1 (load_stores_vocabulary _ _ _ _ H))
         | exact (proj1 (proj2 (load_stores_vocabulary _ _ _ _ H)))].
Defined.

Lemma correct_empty_text_witness :
  (threshold hello_corrector < 1)%Q ∧
  correct_text hello_corrector [] = Returns [].
Proof.
  assert (H : (threshold hello_corrector < 1)%Q) by reflexivity.
  split; [exact H|].
  exact (proj1 (proj2 (correct_empty_text hello_corrector H))).
Defined.

(** * Further properties *)

(** ** find: the spans and their scores *)

(** A step to a cell before moves up or to the left. *)
Lemma follows_up_left (D : gmap cell (list Z)) (c p : cell) :
  follows D c p → c.1 - 1 ≤ p.1 ≤ c.1 ∧ c.2 - 1 ≤ p.2 ≤ c.2.
Proof. intros H. destruct H; simpl; lia. Qed.

Lemma path_in_table (text query : str) (c c' : cell) :
  in_table text query c →
  rtc (follows (forward_tables text query).2) c c' →
  in_table text query c' ∧ c'.1 ≤ c.1 ∧ c'.2 ≤ c.2.
Proof.
  intros Hc Hrtc. induction Hrtc as [c|c p c' Hf _ IH]; [split; [done|lia]|].
  destruct (follows_in_table text query c p Hc Hf) as [Hp _].
  apply follows_up_left in Hf. destruct (IH Hp) as (? & ? & ?). split; [done|lia].
Qed.


Lemma forward_ends_facts (t : Q) (E : gmap cell nat) (m n l j : Z) (s : Q) :
  (j, s) ∈ forward_ends t E m n l →
  0 ≤ j ≤ n ∧ l ≠ 0 ∧ s = (Z.of_nat (E !!! (m, j)) # Z.to_pos l) ∧ (s <= t)%Q.
Proof.
  unfold forward_ends. rewrite list_elem_of_omap. intros (i & Hi & Hf).
  apply elem_of_range in Hi. unfold np_divide in Hf.
  destruct (Z.eqb_spec l 0) as [->|Hl]; [by destruct (Nat.eqb _ 0)|].
  destruct (Qle_bool _ t) eqn:Hle; [|done].
  injection Hf as <- <-. apply Qle_bool_iff in Hle. split_and!; [lia | lia | done..].
Qed.


(** A recorded operation accounts for the cost of its cell. *)
Lemma Dcell_cost (text query : str) (i' j : nat) (k : Z) :
  k ∈ Dcell text query (S i') j →
  (k = 0 ∧ Ecell text query (S i') j = (Ecell text query i' j + 1)%nat) ∨
  (∃ j', j = S j' ∧
     ((k = 1 ∧ Ecell text query (S i') j =
               (Ecell text query i' j'
                + distance (item query (Z.of_nat i')) (item text (Z.of_nat j')))%nat) ∨
      (k = 2 ∧ Ecell text query (S i') j = (Ecell text query (S i') j' + 1)%nat))).
Proof.
  destruct j as [|j'].
  - simpl. rewrite list_elem_of_singleton. intros ->. left. split; [done|].
    rewrite Ecell_col0. lia.
  - unfold Dcell, choices_at. rewrite elem_of_where_eq3.
    intros [[-> Hk]|[[-> Hk]|[-> Hk]]].
    + left. by rewrite <- Hk.
    + right. exists j'. split; [done|]. left. by rewrite <- Hk.
    + right. exists j'. split; [done|]. right. by rewrite <- Hk.
Qed.

Lemma follows_cost (text query : str) (i j : nat) (p : cell) :
  (i ≤ length query)%nat → (j ≤ length text)%nat →
  follows (forward_tables text query).2 (Z.of_nat i, Z.of_nat j) p →
  ∃ i', i = S i' ∧
    ((p = (Z.of_nat i', Z.of_nat j) ∧
      Ecell text query i j = (Ecell text query i' j + 1)%nat) ∨
     (∃ j', j = S j' ∧ p = (Z.of_nat i', Z.of_nat j') ∧
        Ecell text query i j =
        (Ecell text query i' j'
         + distance (item query (Z.of_nat i')) (item text (Z.of_nat j')))%nat) ∨
     (∃ j', j = S j' ∧ p = (Z.of_nat i, Z.of_nat j') ∧
        Ecell text query i j = (Ecell text query i j' + 1)%nat)).
Proof.
  intros Hi Hj Hf. apply follows_predecessors in Hf as (Hne & ops & HD & Hp).
  cbn [fst] in Hne. destruct i as [|i']; [done|]. exists i'. split; [done|].
  rewrite forward_tables_D in HD by done. injection HD as Hops.
  apply elem_of_predecessors in Hp. cbn [fst snd] in Hp.
  rewrite <- Hops in Hp.
  destruct Hp as [[Hk ->]|[[Hk ->]|[Hk ->]]]; apply Dcell_cost in Hk;
    destruct Hk as [[Hk HE]|(j' & -> & [[Hk HE]|[Hk HE]])]; try done.
  - left. split; [f_equal; lia | done].
  - right. left. exists j'. split; [done|]. split; [f_equal; lia | done].
  - right. right. exists j'. split; [done|]. split; [f_equal; lia | done].
Qed.

(** A path of recorded operations from a cell to row 0 is an alignment of
    the prefix of the query with the text between the two columns: the
    distance between them is at most the entry of the cell. *)
Lemma path_bounds_lev (text query : str) (i j s : nat) :
  (i ≤ length query)%nat → (j ≤ length text)%nat →
  rtc (follows (forward_tables text query).2) (Z.of_nat i, Z.of_nat j) (0, Z.of_nat s) →
  (s ≤ j)%nat ∧ (lev query (drop s text) i (j - s) ≤ Ecell text query i j)%nat.
Proof.
  intros Hi Hj Hrtc.
  remember (Z.of_nat i, Z.of_nat j) as c eqn:Hc.
  remember (0, Z.of_nat s) as c' eqn:Hc'.
  revert i j Hi Hj Hc. induction Hrtc as [c|c p c' Hf Hrtc IH]; intros i j Hi Hj Hc.
  - subst c. injection Hc as Hi0 Hjs.
    assert (i = 0%nat) as -> by lia. assert (j = s) as -> by lia.
    split; [done|]. replace (s - s)%nat with 0%nat by lia. done.
  - subst c c'. specialize (IH eq_refl).
    destruct (follows_cost text query i j p Hi Hj Hf)
      as (i' & -> & [[-> HE]|[(j' & -> & -> & HE)|(j' & -> & -> & HE)]]).
    + destruct (IH i' j) as [Hs Hlev]; [lia | done | done |]. split; [done|].
      pose proof (lev_delete query (drop s text) i' (j - s)). lia.
    + destruct (IH i' j') as [Hs Hlev]; [lia | lia | done |]. split; [lia|].
      replace (S j' - s)%nat with (S (j' - s)) by lia.
      rewrite lev_inner, item_drop. replace (s + (j' - s))%nat with j' by lia.
      pose proof (min3_le (lev query (drop s text) i' (S (j' - s)) + 1)
        (lev query (drop s text) i' (j' - s)
         + distance (item query (Z.of_nat i')) (item text (Z.of_nat j')))
        (lev query (drop s text) (S i') (j' - s) + 1)). lia.
    + destruct (IH (S i') j') as [Hs Hlev]; [lia | lia | done |]. split; [lia|].
      replace (S j' - s)%nat with (S (j' - s)) by lia.
      rewrite lev_inner.
      pose proof (min3_le (lev query (drop s text) i' (S (j' - s)) + 1)
        (lev query (drop s text) i' (j' - s)
         + distance (item query (Z.of_nat i')) (item (drop s text) (Z.of_nat (j' - s))))
        (lev query (drop s text) (S i') (j' - s) + 1)). lia.
Qed.

(** The score of a span found is the distance to its text. *)
Lemma found_score_is_distance (self : TextCorrector) (text query : str)
    (found : list (span * Q)) (sp : span) (s : Q) :
  find self text query = Returns found →
  (sp, s) ∈ found →
  let a := Z.to_nat sp.1 in
  let b := Z.to_nat sp.2 in
  s = normalized (edit_distance query (substring text a b)) query ∧
  ∀ a', (a' ≤ b)%nat →
        (edit_distance query (substring text a b)
         ≤ edit_distance query (substring text a' b))%nat.
Proof.
  intros Hfind Hin a b.
  destruct (find_returns self text query) as (found' & Hfind' & _ & Hmem).
  rewrite Hfind in Hfind'. injection Hfind' as <-.
  apply Hmem in Hin as [Hend [_ Hpath]].
  rewrite forward_unfold in Hend. simpl in Hend.
  apply forward_ends_facts in Hend as (Hj & Hm & -> & Hle).
  pose proof Hpath as Hpath'.
  apply path_in_table in Hpath' as ([Hc1 Hc2] & _ & Hcol);
    [|unfold in_table, len in *; simpl; lia].
  simpl in Hc2, Hcol.
  assert (Hb : (b ≤ length text)%nat) by (unfold b, len in *; lia).
  replace (len query, sp.2) with (Z.of_nat (length query), Z.of_nat b) in Hpath
    by (unfold len, b; f_equal; lia).
  replace (0, sp.1) with (0, Z.of_nat a) in Hpath by (unfold a; f_equal; lia).
  apply path_bounds_lev in Hpath as [Hab Hlev]; [|done..].
  pose proof (Ecell_le_lev text query (length query) b a Hab) as Hle'.
  assert (HE : edit_distance query (substring text a b)
               = Ecell text query (length query) b).
  { rewrite edit_distance_substring by done. lia. }
  split.
  - unfold normalized. f_equal. rewrite HE.
    replace (len query, sp.2) with (Z.of_nat (length query), Z.of_nat b)
      by (unfold len, b; f_equal; lia).
    by rewrite forward_tables_E.
  - intros a' Ha'. rewrite HE, (edit_distance_substring text query a' b) by done.
    by apply Ecell_le_lev.
Qed.

(** X2. The score of a span that [find] returns is the edit distance
    between the query and the text of that span, divided by the length of
    the query, and no substring of the text that ends where the span ends is
    closer to the query. *)
Theorem find_scores_are_edit_distances (self : TextCorrector) (text query : str)
    (found : list (span * Q)) (sp : span) (s : Q) :
  find self text query = Returns found →
  (sp, s) ∈ found →
  let a := Z.to_nat sp.1 in
  let b := Z.to_nat sp.2 in
  s = normalized (edit_distance query (substring text a b)) query ∧
  ∀ a', (a' ≤ b)%nat →
        (edit_distance query (substring text a b)
         ≤ edit_distance query (substring text a' b))%nat.
Proof. apply found_score_is_distance. Qed.

Lemma find_scores_are_edit_distances_witness :
  find hello_corrector helo_world hello = Returns [((0, 4), 1 # 5)] ∧
  (1 # 5) = normalized (edit_distance hello (substring helo_world 0 4)) hello.
Proof.
  assert (H : find hello_corrector helo_world hello = Returns [((0, 4), 1 # 5)])
    by (vm_compute; reflexivity).
  split; [exact H|].
  exact (proj1 (find_scores_are_edit_distances hello_corrector helo_world hello
                  _ (0, 4) (1 # 5) H ltac:(left))).
Defined.

(** Along an occurrence of the query in the text the entries of [E] are 0. *)
Lemma Ecell_occurrence (text query : str) (s i : nat) :
  (∀ k, (k < i)%nat →
        distance (item query (Z.of_nat k)) (item text (Z.of_nat (s + k))) = 0%nat) →
  Ecell text query i (s + i) = 0%nat.
Proof.
  induction i as [|i' IH]; intros Hocc; [done|].
  replace (s + S i')%nat with (S (s + i')) by lia. rewrite Ecell_inner.
  rewrite IH by (intros; apply Hocc; lia). rewrite Hocc by lia.
  unfold min3. lia.
Qed.

Lemma path_occurrence (text query : str) (s i : nat) :
  (i ≤ length query)%nat → (s + i ≤ length text)%nat →
  (∀ k, (k < i)%nat →
        distance (item query (Z.of_nat k)) (item text (Z.of_nat (s + k))) = 0%nat) →
  rtc (follows (forward_tables text query).2)
      (Z.of_nat i, Z.of_nat (s + i)) (0, Z.of_nat s).
Proof.
  induction i as [|i' IH]; intros Hi Hs Hocc.
  { replace (s + 0)%nat with s by lia. apply rtc_refl. }
  eapply rtc_l; [|apply IH; [lia | lia | intros; apply Hocc; lia]].
  replace (Z.of_nat i', Z.of_nat (s + i'))
    with ((Z.of_nat (S i'), Z.of_nat (s + S i')).1 - 1,
          (Z.of_nat (S i'), Z.of_nat (s + S i')).2 - 1)
    by (simpl; f_equal; lia).
  eapply follows_substitute; [simpl; lia | by apply forward_tables_D |].
  replace (s + S i')%nat with (S (s + i')) by lia.
  unfold Dcell, choices_at. apply elem_of_where_eq3. right. left. split; [done|].
  rewrite (Ecell_occurrence text query s i') by (intros; apply Hocc; lia).
  rewrite Hocc by lia.
  replace (S (s + i')) with (s + S i')%nat by lia.
  by rewrite (Ecell_occurrence text query s (S i')).
Qed.

(** X3. An occurrence of a non-empty query in the text, up to the case of
    the letters and to the kind of the blanks, is always found: for a
    threshold of at least 0, [find] returns its span with the score 0. *)
Theorem find_exact_occurrence (self : TextCorrector) (text query : str) (s : nat) :
  query ≠ [] →
  (0 <= threshold self)%Q →
  (s + length query ≤ length text)%nat →
  (∀ k, (k < length query)%nat →
        distance (item query (Z.of_nat k)) (item text (Z.of_nat (s + k))) = 0%nat) →
  ∃ found,
    find self text query = Returns found ∧
    ((Z.of_nat s, Z.of_nat (s + length query)), normalized 0 query) ∈ found.
Proof.
  intros Hq Ht Hs Hocc.
  destruct (find_returns self text query) as (found & Hfind & _ & Hmem).
  exists found. split; [done|]. apply Hmem. simpl. split.
  - rewrite forward_unfold. simpl.
    apply elem_of_forward_ends; [by apply len_nonzero|].
    split; [unfold len; lia|]. split.
    + unfold normalized. f_equal. unfold len at 1.
      rewrite forward_tables_E by lia. by rewrite Ecell_occurrence.
    + unfold normalized, Qle in *. simpl in *. nia.
  - split; [done|]. unfold len. by apply path_occurrence.
Qed.

Lemma find_exact_occurrence_witness :
  hello ≠ [] ∧
  ∃ found,
    find hello_corrector (list_ascii_of_string "oh HELLO") hello = Returns found ∧
    ((3, 8), 0 # 5) ∈ found.
Proof.
  split; [discriminate|].
  apply (find_exact_occurrence hello_corrector (list_ascii_of_string "oh HELLO") hello 3).
  - discriminate.
  - discriminate.
  - simpl. lia.
  - intros k Hk. simpl in Hk.
    destruct k as [|[|[|[|[|k]]]]]; [reflexivity.. | lia].
Defined.

(** ** choose_positions: what is kept and what is dropped *)

Lemma select_positions_subset (protected : list span) (l : list (span * Q)) (x : span) :
  x ∈ select_positions protected l → ∃ s, (x, s) ∈ l.
Proof.
  induction l as [|p l IH] using rev_ind; [by intros ?%elem_of_nil|].
  rewrite select_positions_snoc. intros Hx.
  assert (x ∈ select_positions protected l ∨ x = p.1) as [Hl| ->].
  { destruct (existsb _ _); [by left|].
    apply elem_of_app in Hx as [?|Hx]; [by left|].
    apply list_elem_of_singleton in Hx. by right. }
  - destruct (IH Hl) as [s Hs]. exists s. apply elem_of_app. by left.
  - exists p.2. apply elem_of_app. right. apply list_elem_of_singleton. by destruct p.
Qed.

Lemma select_positions_grows (protected : list span) (l l' : list (span * Q)) (x : span) :
  x ∈ select_positions protected l → x ∈ select_positions protected (l ++ l').
Proof.
  intros Hx. induction l' as [|p l' IH] using rev_ind; [by rewrite app_nil_r|].
  rewrite app_assoc, select_positions_snoc.
  destruct (existsb _ _); [done|]. apply elem_of_app. by left.
Qed.

Lemma select_positions_maximal (protected : list span) (l : list (span * Q)) (p : span * Q) :
  p ∈ l →
  p.1 ∈ select_positions protected l ∨
  ∃ y, y ∈ select_positions protected l ++ protected ∧ intersect p.1 y = true.
Proof.
  induction l as [|q l IH] using rev_ind; [by intros ?%elem_of_nil|].
  intros Hp. apply elem_of_app in Hp as [Hp|Hp].
  - destruct (IH Hp) as [Hkept|(y & Hy & Hint)].
    + left. by apply select_positions_grows.
    + right. exists y. split; [|done].
      apply elem_of_app in Hy as [Hy|Hy]; apply elem_of_app; [left|by right].
      by apply select_positions_grows.
  - apply list_elem_of_singleton in Hp as ->. rewrite select_positions_snoc.
    destruct (existsb _ _) eqn:Hex.
    + right. apply existsb_exists in Hex as (y & Hy & Hint).
      exists y. split; [by apply list_elem_of_In|done].
    + left. apply elem_of_app. right. by apply list_elem_of_singleton.
Qed.

(** X4. What [choose_positions] returns is a maximal choice among the
    candidates: every span returned is the span of a candidate, and every
    candidate that is not returned intersects a span that is returned or a
    protected interval. *)
Theorem choose_from_maximal (protected : list span) (candidates : list (span * Q)) :
  (∀ x, x ∈ choose_from protected candidates → ∃ s, (x, s) ∈ candidates) ∧
  (∀ x s, (x, s) ∈ candidates →
          x ∈ choose_from protected candidates ∨
          ∃ y, y ∈ choose_from protected candidates ++ protected ∧ intersect x y = true).
Proof.
  unfold choose_from. split.
  - intros x Hx. rewrite sorted_by_perm in Hx.
    apply select_positions_subset in Hx as [s Hs]. exists s.
    by rewrite sorted_by_perm in Hs.
  - intros x s Hxs.
    destruct (select_positions_maximal protected
                (sorted_by (λ x y : span * Q, Qle_bool x.2 y.2) candidates) (x, s))
      as [Hkept|(y & Hy & Hint)].
    + by rewrite sorted_by_perm.
    + left. by rewrite sorted_by_perm.
    + right. exists y. split; [|done]. by rewrite sorted_by_perm.
Qed.

(** ** add_positions: the loops *)

Lemma place_remap_one (position : span) (shift cum_shift : Z) (final pending : list span) :
  place position shift (seq (length final) (length pending)) (final ++ pending) cum_shift =
  ((final ++ (remap_one position shift cum_shift pending).1)
     ++ (remap_one position shift cum_shift pending).2,
   next_shift position shift cum_shift,
   length (final ++ (remap_one position shift cum_shift pending).1)).
Proof.
  revert final. induction pending as [|c rest IH]; intros final.
  - simpl. by rewrite !app_nil_r.
  - cbn [length seq place]. rewrite list_lookup_middle by done.
    cbn [remap_one]. destruct (c.1 >? position.1) eqn:Hc.
    + cbn [fst snd]. unfold list_insert_at.
      rewrite take_app_length, drop_app_length.
      rewrite length_app. simpl. rewrite <- app_assoc. simpl.
      repeat f_equal. lia.
    + assert (Hshift : shift_at (length final) cum_shift (final ++ c :: rest)
                       = (final ++ [shifted cum_shift c]) ++ rest).
      { unfold shift_at. rewrite list_lookup_middle by done.
        rewrite insert_app_r_alt by done. rewrite Nat.sub_diag. simpl.
        by rewrite <- app_assoc. }
      rewrite Hshift.
      replace (S (length final)) with (length (final ++ [shifted cum_shift c]))
        by (rewrite length_app; simpl; lia).
      rewrite IH. destruct (remap_one position shift cum_shift rest) as [f r].
      cbn [fst snd]. by rewrite <- !app_assoc.
Qed.

Lemma final_shift (d : Z) (final pending : list span) :
  foldl (fun cs i => shift_at i d cs) (final ++ pending)
        (seq (length final) (length pending))
  = final ++ (shifted d <$> pending).
Proof.
  revert final. induction pending as [|c rest IH]; intros final; [done|].
  cbn [length seq foldl].
  assert (Hshift : shift_at (length final) d (final ++ c :: rest)
                   = (final ++ [shifted d c]) ++ rest).
  { unfold shift_at. rewrite list_lookup_middle by done.
    rewrite insert_app_r_alt by done. rewrite Nat.sub_diag. simpl.
    by rewrite <- app_assoc. }
  rewrite Hshift.
  replace (S (length final)) with (length (final ++ [shifted d c]))
    by (rewrite length_app; simpl; lia).
  rewrite IH. by rewrite <- app_assoc.
Qed.

(** The loop over the positions and the last loop, from a state in which
    the intervals [final] are settled and the intervals [pending] are old. *)
Lemma add_positions_loops (shift : Z) (positions final pending : list span) (cum_shift : Z) :
  (let '(cs, cum, i_start) :=
     foldl (fun '(cs, cum, i_start) position =>
              place position shift (seq i_start (length cs - i_start)) cs cum)
           (final ++ pending, cum_shift, length final) positions in
   foldl (fun cs i => shift_at i cum cs) cs (seq i_start (length cs - i_start)))
  = final ++ remap pending positions shift cum_shift.
Proof.
  revert final pending cum_shift.
  induction positions as [|p ps IH]; intros final pending cum_shift.
  - cbn [foldl remap].
    replace (length (final ++ pending) - length final)%nat with (length pending)
      by (rewrite length_app; lia).
    apply final_shift.
  - cbn [foldl remap].
    replace (length (final ++ pending) - length final)%nat with (length pending)
      by (rewrite length_app; lia).
    rewrite place_remap_one, IH.
    destruct (remap_one p shift cum_shift pending) as [f r]. cbn [fst snd].
    by rewrite <- app_assoc.
Qed.

(** The list that [add_positions] leaves, by the merge. *)
Lemma add_positions_changed (self : TextCorrector) (positions : list span) (shift : Z) :
  changed (add_positions self positions shift) =
  match positions with
  | [] => changed self
  | p :: _ =>
      match changed self with
      | [] => (p.1, p.1 + shift) :: remap [] positions shift (shift - p.2 + p.1)
      | _ :: _ => remap (changed self) positions shift 0
      end
  end ∧
  threshold (add_positions self positions shift) = threshold self ∧
  words (add_positions self positions shift) = words self.
Proof.
  unfold add_positions. destruct positions as [|p ps]; [done|].
  destruct (changed self) as [|c cs] eqn:Hcs.
  - rewrite bool_decide_false by done. cbn [drop].
    pose proof (add_positions_loops shift (p :: ps) [(p.1, p.1 + shift)] []
                  (shift - p.2 + p.1)) as H.
    cbn [app length] in H.
    destruct (foldl _ _ _) as [[cs' cum'] i']. simpl. by rewrite H.
  - rewrite bool_decide_false by done. cbn [drop].
    pose proof (add_positions_loops shift (p :: ps) [] (c :: cs) 0) as H.
    cbn [app length] in H. change (length []) with 0%nat in H.
    destruct (foldl _ _ _) as [[cs' cum'] i']. simpl. by rewrite H.
Qed.

(** X5. What [add_positions] leaves in the list of protected intervals.
    Without positions the list is left as it is.  On a list that is not
    empty the old intervals and the positions are merged by start: an old
    interval moves by the shift of the positions before it, and a position
    gives one interval of the width [shift].  On an empty list the first
    position is used twice: for the interval [(s, s + shift)], and again with
    all the positions in the merge.  The threshold and the vocabulary are
    not touched. *)
Theorem add_positions_result (self : TextCorrector) (positions : list span) (shift : Z) :
  changed (add_positions self positions shift) =
  match positions with
  | [] => changed self
  | p :: _ =>
      match changed self with
      | [] => (p.1, p.1 + shift) :: remap [] positions shift (shift - p.2 + p.1)
      | _ :: _ => remap (changed self) positions shift 0
      end
  end ∧
  threshold (add_positions self positions shift) = threshold self ∧
  words (add_positions self positions shift) = words self.
Proof. apply add_positions_changed. Qed.

(** ** add_positions: the order of the intervals *)

Lemma ordered_app {A} (R : A → A → Prop) (l1 l2 : list A) :
  ordered R (l1 ++ l2) ↔
  ordered R l1 ∧ ordered R l2 ∧ ∀ x y, x ∈ l1 → y ∈ l2 → R x y.
Proof.
  induction l1 as [|a l1 IH]; simpl.
  - split.
    + intros H. split_and!; [apply ordered_nil | done |].
      intros x y Hx. by apply elem_of_nil in Hx.
    + by intros (_ & H & _).
  - rewrite !ordered_cons, IH. split.
    + intros (Ha & H1 & H2 & H12). split_and!; [|done..|].
      * intros y Hy. apply Ha, elem_of_app. by left.
      * intros x y Hx Hy. apply elem_of_cons in Hx as [->|Hx]; [|by apply H12].
        apply Ha, elem_of_app. by right.
    + intros ((Ha & H1) & H2 & H12). split_and!; [|done..|].
      * intros y Hy. apply elem_of_app in Hy as [Hy|Hy]; [by apply Ha|].
        apply H12; [by left|done].
      * intros x y Hx Hy. apply H12; [by right|done].
Qed.

Lemma well_separated_chained (l : list span) : well_separated l ↔ chained l.
Proof.
  unfold well_separated, chained. split.
  - intros (Hasc & Hpd & Hne). split; [|done].
    intros i j x y Hij Hx Hy.
    specialize (Hasc i j x y Hij Hx Hy). simpl in Hasc.
    assert (Hint : intersect x y = false) by (apply (Hpd i j); [lia|done..]).
    pose proof (Hne y (list_elem_of_lookup_2 _ _ _ Hy)).
    unfold intersect in Hint. apply andb_false_iff in Hint. lia.
  - intros (Hord & Hne). split_and!; [| |done].
    + intros i j x y Hij Hx Hy. specialize (Hord i j x y Hij Hx Hy). simpl in *.
      pose proof (Hne x (list_elem_of_lookup_2 _ _ _ Hx)). lia.
    + intros i j x y Hij Hx Hy. unfold intersect. apply andb_false_iff.
      destruct (decide (i < j)%nat).
      * specialize (Hord i j x y ltac:(lia) Hx Hy). simpl in Hord. lia.
      * specialize (Hord j i y x ltac:(lia) Hy Hx). simpl in Hord. lia.
Qed.

(** What [remap_one] gives: the old intervals up to the position, moved, and
    the new interval; the intervals left start after the position. *)
Lemma remap_one_split (p : span) (shift cum : Z) (pending : list span) :
  ∃ before,
    pending = before ++ (remap_one p shift cum pending).2 ∧
    (remap_one p shift cum pending).1 = (shifted cum <$> before) ++ [new_interval p shift cum] ∧
    (∀ c, c ∈ before → c.1 ≤ p.1) ∧
    match (remap_one p shift cum pending).2 with
    | [] => True
    | c :: _ => p.1 < c.1
    end.
Proof.
  induction pending as [|c rest (before & Hsplit & Hf & Hbefore & Hrest)]; simpl.
  - exists []. split_and!; [done | done | | done]. intros c Hc. by apply elem_of_nil in Hc.
  - destruct (c.1 >? p.1) eqn:Hc.
    + exists []. simpl. split_and!; [done | done | | lia].
      intros c' Hc'. by apply elem_of_nil in Hc'.
    + destruct (remap_one p shift cum rest) as [f r]. simpl in *.
      exists (c :: before). simpl. split_and!; [by f_equal | by f_equal | | done].
      intros c' Hc'. apply elem_of_cons in Hc' as [->|Hc']; [lia | by apply Hbefore].
Qed.

Lemma length_remap (pending positions : list span) (shift cum : Z) :
  length (remap pending positions shift cum) = (length pending + length positions)%nat.
Proof.
  revert pending cum. induction positions as [|p ps IH]; intros pending cum; simpl.
  - rewrite length_fmap. lia.
  - destruct (remap_one_split p shift cum pending) as (before & Hsplit & Hf & _).
    destruct (remap_one p shift cum pending) as [f r]. simpl in *.
    apply (f_equal length) in Hsplit. rewrite length_app in Hsplit.
    rewrite length_app, IH. subst f.
    rewrite !length_app, length_fmap. simpl. lia.
Qed.

Lemma chained_shifted (d : Z) (l : list span) : chained l → chained (shifted d <$> l).
Proof.
  intros [Hord Hne]. split.
  - intros i j x y Hij Hx Hy. rewrite list_lookup_fmap in Hx, Hy.
    destruct (l !! i) as [x'|] eqn:Hx'; [|done].
    destruct (l !! j) as [y'|] eqn:Hy'; [|done].
    injection Hx as <-. injection Hy as <-.
    specialize (Hord i j x' y' Hij Hx' Hy'). simpl in *. lia.
  - intros x Hx. apply list_elem_of_fmap in Hx as (x' & -> & Hx').
    specialize (Hne x' Hx'). simpl. lia.
Qed.

(** The merge of chained old intervals and chained positions that do not
    intersect them is chained, and starts no earlier than they do. *)
Lemma remap_chained (shift : Z) (positions pending : list span) (cum lo : Z) :
  0 < shift →
  chained pending → chained positions →
  (∀ p c, p ∈ positions → c ∈ pending → intersect p c = false) →
  (∀ c, c ∈ pending → lo ≤ c.1) → (∀ p, p ∈ positions → lo ≤ p.1) →
  chained (remap pending positions shift cum) ∧
  ∀ r, r ∈ remap pending positions shift cum → lo + cum ≤ r.1.
Proof.
  intros Hshift. revert pending cum lo.
  induction positions as [|p ps IH]; intros pending cum lo Hpend Hpos Hcross Hlo1 Hlo2.
  - simpl. split; [by apply chained_shifted|].
    intros r Hr. apply list_elem_of_fmap in Hr as (c & -> & Hc).
    specialize (Hlo1 c Hc). simpl. lia.
  - simpl.
    destruct (remap_one_split p shift cum pending) as (before & Hsplit & Hf & Hbefore & Hrest).
    destruct (remap_one p shift cum pending) as [f r]. simpl in Hsplit, Hf, Hrest. subst f.
    destruct Hpos as [Hpos_ord Hpos_ne].
    apply ordered_cons in Hpos_ord as [Hp_ps Hps_ord].
    pose proof (Hpos_ne p ltac:(left)) as Hp_ne.
    destruct Hpend as [Hpend_ord Hpend_ne]. rewrite Hsplit in Hpend_ord.
    apply ordered_app in Hpend_ord as (Hbef_ord & Hr_ord & Hbef_r).
    assert (Hin_before : ∀ c, c ∈ before → c ∈ pending)
      by (intros c Hc; rewrite Hsplit; apply elem_of_app; by left).
    assert (Hin_r : ∀ c, c ∈ r → c ∈ pending)
      by (intros c Hc; rewrite Hsplit; apply elem_of_app; by right).
    (* the old intervals up to the position end before it *)
    assert (Hb_end : ∀ c, c ∈ before → c.2 ≤ p.1).
    { intros c Hc. pose proof (Hbefore c Hc).
      pose proof (Hcross p c ltac:(left) (Hin_before c Hc)) as Hint.
      unfold intersect in Hint. apply andb_false_iff in Hint. lia. }
    (* the old intervals left start after it *)
    assert (Hr_start : ∀ c, c ∈ r → p.2 ≤ c.1).
    { assert (Hafter : ∀ c, c ∈ r → p.1 < c.1).
      { destruct r as [|c0 r']; [by intros c ?%elem_of_nil|].
        apply ordered_cons in Hr_ord as [Hc0 _].
        intros c Hc. apply elem_of_cons in Hc as [->|Hc]; [done|].
        specialize (Hc0 c Hc). simpl in Hc0.
        pose proof (Hpend_ne c0 (Hin_r c0 ltac:(left))). lia. }
      intros c Hc. pose proof (Hafter c Hc).
      pose proof (Hpend_ne c (Hin_r c Hc)).
      pose proof (Hcross p c ltac:(left) (Hin_r c Hc)) as Hint.
      unfold intersect in Hint. apply andb_false_iff in Hint. lia. }
    destruct (IH r (next_shift p shift cum) p.2) as [[Htail_ord Htail_ne] Htail_lo].
    { split; [done|]. intros c Hc. by apply Hpend_ne, Hin_r. }
    { split; [done|]. intros q Hq. apply Hpos_ne. by right. }
    { intros q c Hq Hc. apply Hcross; [by right | by apply Hin_r]. }
    { done. }
    { intros q Hq. by apply Hp_ps. }
    assert (Htail_new : ∀ x, x ∈ remap r ps shift (next_shift p shift cum) →
                             p.1 + cum + shift ≤ x.1).
    { intros x Hx. specialize (Htail_lo x Hx). unfold next_shift in Htail_lo. lia. }
    destruct (chained_shifted cum before) as [Hsb_ord Hsb_ne].
    { split; [done|]. intros c Hc. by apply Hpend_ne, Hin_before. }
    split; [split|].
    + rewrite <- app_assoc. apply ordered_app. split_and!; [done| |].
      * apply ordered_cons. split; [|done].
        intros y Hy. simpl. by apply Htail_new.
      * intros x y Hx Hy. apply list_elem_of_fmap in Hx as (c & -> & Hc).
        specialize (Hb_end c Hc). simpl.
        apply elem_of_cons in Hy as [->|Hy]; [simpl; lia|].
        specialize (Htail_new y Hy). lia.
    + intros x Hx. rewrite <- app_assoc in Hx.
      apply elem_of_app in Hx as [Hx|Hx]; [by apply Hsb_ne|].
      apply elem_of_cons in Hx as [->|Hx]; [simpl; lia | by apply Htail_ne].
    + intros x Hx. rewrite <- app_assoc in Hx. apply elem_of_app in Hx as [Hx|Hx].
      * apply list_elem_of_fmap in Hx as (c & -> & Hc).
        specialize (Hlo1 c (Hin_before c Hc)). simpl. lia.
      * pose proof (Hlo2 p ltac:(left)).
        apply elem_of_cons in Hx as [->|Hx]; [simpl; lia|].
        specialize (Htail_new x Hx). lia.
Qed.

Lemma starts_bounded_below (l : list span) : ∃ lo, ∀ c, c ∈ l → lo ≤ c.1.
Proof.
  induction l as [|c l [lo Hlo]].
  - exists 0. intros c Hc. by apply elem_of_nil in Hc.
  - exists (Z.min c.1 lo). intros c' Hc'.
    apply elem_of_cons in Hc' as [->|Hc']; [lia|]. specialize (Hlo c' Hc'). lia.
Qed.

(** X6. On a list of protected intervals that is not empty,
    [add_positions] keeps the order of the list.  If the protected intervals
    are ascending, pairwise disjoint and not empty, the positions are so too
    and intersect no protected interval, and the width of a replacement is
    positive, then the list that is left is ascending, pairwise disjoint and
    without an empty interval, and it has one interval more for each
    position. *)
Theorem add_positions_keeps_order (self : TextCorrector) (positions : list span) (shift : Z) :
  changed self ≠ [] →
  0 < shift →
  well_separated (changed self) →
  well_separated positions →
  (∀ p c, p ∈ positions → c ∈ changed self → intersect p c = false) →
  well_separated (changed (add_positions self positions shift)) ∧
  length (changed (add_positions self positions shift))
  = (length (changed self) + length positions)%nat.
Proof.
  intros Hne Hshift Hold Hpos Hcross.
  destruct (add_positions_changed self positions shift) as [Hres _].
  destruct positions as [|p ps]; [rewrite Hres; split; [done|simpl; lia]|].
  destruct (changed self) as [|c cs] eqn:Hcs; [done|].
  rewrite Hres. split; [|apply length_remap].
  destruct (starts_bounded_below ((c :: cs) ++ p :: ps)) as [lo Hlo].
  apply well_separated_chained.
  apply (remap_chained shift (p :: ps) (c :: cs) 0 lo);
    [done | by apply well_separated_chained | by apply well_separated_chained | done | |].
  - intros c' Hc'. apply Hlo, elem_of_app. by left.
  - intros p' Hp'. apply Hlo, elem_of_app. by right.
Qed.

Ltac elem_cases H :=
  repeat (apply elem_of_cons in H as [->|H]; [simpl; try lia|]);
  try (by apply elem_of_nil in H).

Lemma add_positions_keeps_order_witness :
  well_separated [(15, 18)] ∧
  well_separated [(10, 12); (20, 22)] ∧
  well_separated (changed (add_positions (set_changed [(15, 18)] hello_corrector)
                                         [(10, 12); (20, 22)] 6)) ∧
  changed (add_positions (set_changed [(15, 18)] hello_corrector) [(10, 12); (20, 22)] 6)
  = [(10, 16); (19, 22); (24, 30)].
Proof.
  assert (H1 : well_separated [(15, 18)]).
  { apply well_separated_chained. split.
    - apply ordered_cons. split; [intros y Hy; elem_cases Hy | apply ordered_nil].
    - intros x Hx. elem_cases Hx. }
  assert (H2 : well_separated [(10, 12); (20, 22)]).
  { apply well_separated_chained. split.
    - apply ordered_cons. split; [intros y Hy; elem_cases Hy|].
      apply ordered_cons. split; [intros y Hy; elem_cases Hy | apply ordered_nil].
    - intros x Hx. elem_cases Hx. }
  split; [exact H1|]. split; [exact H2|]. split; [|reflexivity].
  refine (proj1 (add_positions_keeps_order (set_changed [(15, 18)] hello_corrector)
                   [(10, 12); (20, 22)] 6 _ _ H1 H2 _)).
  - discriminate.
  - reflexivity.
  - intros p c Hp Hc. simpl in Hc. elem_cases Hc; elem_cases Hp; reflexivity.
Defined.

(** X7. On an empty list of protected intervals [add_positions] does not
    leave an ordered list.  If the first position [(s, e)] is not empty and
    shorter than twice the width of a replacement, the list that is left
    starts with the two intervals [(s, s + shift)] and
    [(s + d, s + d + shift)], for [d = shift - (e - s)], which intersect; it
    has one interval more than there are positions. *)
Theorem add_positions_empty_list (self : TextCorrector) (s e : Z) (ps : list span)
    (shift : Z) :
  changed self = [] →
  s < e → e - s < 2 * shift →
  let result := changed (add_positions self ((s, e) :: ps) shift) in
  let d := shift - (e - s) in
  result !! 0%nat = Some (s, s + shift) ∧
  result !! 1%nat = Some (s + d, s + d + shift) ∧
  intersect (s, s + shift) (s + d, s + d + shift) = true ∧
  ¬ pairwise_disjoint result ∧
  length result = S (S (length ps)).
Proof.
  intros Hcs Hse Hshift result d.
  destruct (add_positions_changed self ((s, e) :: ps) shift) as [Hres _].
  rewrite Hcs in Hres. fold result in Hres. simpl in Hres.
  assert (H1 : result !! 1%nat = Some (s + d, s + d + shift)).
  { rewrite Hres. simpl. unfold new_interval, d. simpl. f_equal. f_equal; lia. }
  assert (Hint : intersect (s, s + shift) (s + d, s + d + shift) = true).
  { unfold intersect, d. simpl. apply andb_true_iff. lia. }
  split_and!; [by rewrite Hres | done | done | |].
  - intros Hpd. rewrite (Hpd 0%nat 1%nat (s, s + shift) (s + d, s + d + shift)) in Hint;
      [done | lia | by rewrite Hres | done].
  - rewrite Hres. simpl. rewrite length_remap. simpl. done.
Qed.

Lemma add_positions_empty_list_witness :
  changed hello_corrector = [] ∧
  ¬ pairwise_disjoint (changed (add_positions hello_corrector [(9, 12); (20, 23)] 5)).
Proof.
  split; [reflexivity|].
  refine (proj1 (proj2 (proj2 (proj2
            (add_positions_empty_list hello_corrector 9 12 [(20, 23)] 5 _ _ _))))).
  - reflexivity.
  - reflexivity.
  - reflexivity.
Defined.

(** ** collapse_spaces *)





(** ** correct: it returns *)

(** [find] reads nothing of the object but the threshold. *)
Lemma find_threshold_only (self self' : TextCorrector) (text query : str) :
  threshold self = threshold self' → find self text query = find self' text query.
Proof. intros H. unfold find, forward. by rewrite H. Qed.




(** ** correct: when nothing is found *)

Lemma slice_all {A} (s : list A) : slice s 0 (len s) = s.
Proof.
  unfold slice, slice_bound, len.
  destruct (Z.ltb_spec (Z.of_nat (length s)) 0) as [?|_]; [lia|].
  change (0 <? 0) with false. cbv beta iota.
  replace (Z.to_nat (Z.min _ _ - Z.min 0 _)) with (length s) by lia.
  replace (Z.to_nat (Z.min 0 _)) with 0%nat by lia.
  by rewrite drop_0, firstn_all.
Qed.

(** A round in which nothing is found leaves the text and the object. *)
Lemma correct_word_nothing_found (self : TextCorrector) (text query : str) :
  find self text query = Returns [] →
  correct_word (self, text) query = Returns (self, text).
Proof.
  intros Hfind. unfold correct_word, choose_positions. rewrite Hfind. simpl.
  by rewrite slice_all.
Qed.

Lemma correct_nothing_found (self : TextCorrector) (text : str) :
  (∀ w, w ∈ words self → find self text w = Returns []) →
  correct self text = Returns (set_changed [] self, collapse_spaces text) ∧
  correct_text self text = Returns (collapse_spaces text).
Proof.
  intros Hnone.
  assert (Hloop : ∀ (ws : list str) (s : TextCorrector),
            threshold s = threshold self → (∀ w, w ∈ ws → w ∈ words self) →
            foldl (λ acc query, st ← acc; correct_word st query) (Returns (s, text)) ws
            = Returns (s, text)).
  { induction ws as [|w ws IH]; intros s Hs Hws; [done|].
    cbn [foldl].
    change (st ← Returns (s, text); correct_word st w) with (correct_word (s, text) w).
    rewrite correct_word_nothing_found.
    - apply IH; [done|]. intros w' Hw'. apply Hws. by right.
    - rewrite (find_threshold_only s self) by done. apply Hnone, Hws. by left. }
  assert (Hc : correct self text = Returns (set_changed [] self, collapse_spaces text)).
  { unfold correct. by rewrite Hloop. }
  split; [done|]. unfold correct_text. by rewrite Hc.
Qed.

(** X9. If [find] gives nothing on the text for any word of the
    vocabulary, [correct] changes nothing but the runs of spaces: it returns
    the text with every run of spaces collapsed, and the list of protected
    intervals is left empty. *)
Theorem correct_without_matches (self : TextCorrector) (text : str) :
  (∀ w, w ∈ words self → find self text w = Returns []) →
  correct self text = Returns (set_changed [] self, collapse_spaces text) ∧
  correct_text self text = Returns (collapse_spaces text).
Proof. apply correct_nothing_found. Qed.

Lemma correct_without_matches_witness :
  (∀ w, w ∈ words (set_words [list_ascii_of_string "xyz"] (init (3 # 10))) →
        find (set_words [list_ascii_of_string "xyz"] (init (3 # 10)))
             (list_ascii_of_string "a") w = Returns []) ∧
  correct_text (set_words [list_ascii_of_string "xyz"] (init (3 # 10)))
               (list_ascii_of_string "a")
  = Returns (list_ascii_of_string "a").
Proof.
  assert (H : ∀ w, w ∈ words (set_words [list_ascii_of_string "xyz"] (init (3 # 10))) →
                find (set_words [list_ascii_of_string "xyz"] (init (3 # 10)))
                     (list_ascii_of_string "a") w = Returns []).
  { intros w Hw. simpl in Hw. apply list_elem_of_singleton in Hw as ->.
    vm_compute. reflexivity. }
  split; [exact H|].
  exact (proj2 (correct_without_matches _ _ H)).
Defined.

(** No score is below 0. *)
Lemma forward_ends_negative_threshold (t : Q) (E : gmap cell nat) (m n l : Z) :
  (t < 0)%Q → forward_ends t E m n l = [].
Proof.
  intros Ht. apply omap_all_None. intros j _. unfold np_divide.
  destruct (l =? 0); [by destruct (Nat.eqb _ 0)|].
  destruct (Qle_bool _ t) eqn:Hle; [|done].
  apply Qle_bool_iff in Hle. unfold Qle, Qlt in *. simpl in *. lia.
Qed.

(** X10. With a threshold below 0 nothing is ever found, not even an exact
    occurrence of a word, and [correct] only collapses the runs of spaces of
    the text. *)
Theorem correct_negative_threshold (self : TextCorrector) (text : str) :
  (threshold self < 0)%Q →
  (∀ query, find self text query = Returns []) ∧
  correct_text self text = Returns (collapse_spaces text).
Proof.
  intros Ht.
  assert (Hfind : ∀ query, find self text query = Returns []).
  { intros query. unfold find. rewrite forward_unfold. cbv beta iota zeta.
    by rewrite forward_ends_negative_threshold. }
  split; [done|]. apply correct_nothing_found. intros w _. apply Hfind.
Qed.

Lemma correct_negative_threshold_witness :
  (threshold (set_words [hello] (init (-1 # 10))) < 0)%Q ∧
  correct_text (set_words [hello] (init (-1 # 10))) hello = Returns hello.
Proof.
  assert (H : (threshold (set_words [hello] (init (-1 # 10))) < 0)%Q) by reflexivity.
  split; [exact H|].
  exact (proj2 (correct_negative_threshold _ hello H)).
Defined.

(** ** load: the lines of a file *)

Lemma elem_of_rev {A} (x : A) (l : list A) : x ∈ rev l ↔ x ∈ l.
Proof. rewrite !list_elem_of_In. symmetry. apply in_rev. Qed.

Lemma splitlines_from_clean (n : nat) (cur s : str) :
  (length s ≤ n)%nat →
  (∀ c, c ∈ cur → is_linebreak c = false) →
  ∀ w, w ∈ splitlines_from cur s → ∀ c, c ∈ w → is_linebreak c = false.
Proof.
  revert cur s. induction n as [|n IH]; intros cur s Hn Hcur w Hw c Hc.
  - destruct s; [|simpl in Hn; lia]. cbn [splitlines_from] in Hw.
    destruct cur as [|c0 cur']; [by apply elem_of_nil in Hw|].
    apply list_elem_of_singleton in Hw as ->.
    apply Hcur. by rewrite elem_of_rev in Hc.
  - destruct s as [|c0 s']; cbn [splitlines_from] in Hw.
    + destruct cur as [|c1 cur']; [by apply elem_of_nil in Hw|].
      apply list_elem_of_singleton in Hw as ->.
      apply Hcur. by rewrite elem_of_rev in Hc.
    + simpl in Hn. destruct (is_linebreak c0) eqn:Hc0.
      * apply elem_of_cons in Hw as [->|Hw].
        { apply Hcur. by rewrite elem_of_rev in Hc. }
        assert (Hnil : ∀ c' : ascii, c' ∈ @nil ascii → is_linebreak c' = false)
          by (intros c' ?%elem_of_nil; done).
        destruct s' as [|c1 s''].
        -- by apply (IH [] [] ltac:(simpl; lia) Hnil w Hw).
        -- destruct (Ascii.eqb c0 "013" && Ascii.eqb c1 "010").
           ++ apply (IH [] s'' ltac:(simpl in *; lia) Hnil w Hw c Hc).
           ++ apply (IH [] (c1 :: s'') ltac:(simpl in *; lia) Hnil w Hw c Hc).
      * apply (IH (c0 :: cur) s' ltac:(lia)) with (w := w); [|done|done].
        intros c' Hc'. apply elem_of_cons in Hc' as [->|Hc']; [done | by apply Hcur].
Qed.

(** The words stored from a file are lines of the file. *)
Lemma load_stores_vocabulary_lines (fs : str → option str) (self self' : TextCorrector)
    (path : str) :
  load fs self (InputPath path) = Returns self' →
  ∀ w, w ∈ words self' → ∃ content, fs path = Some content ∧ w ∈ splitlines content.
Proof.
  intros Hload w Hw. unfold load in Hload.
  destruct (fs path) as [content|] eqn:Hfs; simpl in Hload; [|done].
  injection Hload as <-. simpl in Hw.
  rewrite sorted_by_perm, elem_of_elements, elem_of_list_to_set in Hw.
  by exists content.
Qed.

(** X11. The words that [load] stores from a file have no line break in
    them: no character of a stored word is one of the line boundaries of
    [splitlines]. *)
Theorem load_file_words_clean (fs : str → option str) (self self' : TextCorrector)
    (path : str) :
  load fs self (InputPath path) = Returns self' →
  ∀ w c, w ∈ words self' → c ∈ w → is_linebreak c = false.
Proof.
  intros Hload w c Hw Hc.
  destruct (load_stores_vocabulary_lines fs self self' path Hload w) as (content & _ & Hin);
    [done|].
  apply (splitlines_from_clean (length content) [] content (le_n _)) with (w := w);
    [by intros c' ?%elem_of_nil | done | done].
Qed.

Lemma load_file_words_clean_witness :
  load two_lines_fs (init (3 # 10)) (InputPath [])
  = Returns (set_words [hello; list_ascii_of_string "ab"] (init (3 # 10))) ∧
  ∀ w c, w ∈ [hello; list_ascii_of_string "ab"] → c ∈ w → is_linebreak c = false.
Proof.
  assert (H : load two_lines_fs (init (3 # 10)) (InputPath [])
              = Returns (set_words [hello; list_ascii_of_string "ab"] (init (3 # 10))))
    by (vm_compute; reflexivity).
  split; [exact H|].
  exact (load_file_words_clean two_lines_fs _ _ [] H).
Defined.

(** A line without a line break is read up to its end. *)
Lemma splitlines_from_line (p cur s : str) :
  (∀ c, c ∈ p → is_linebreak c = false) →
  splitlines_from cur (p ++ s) = splitlines_from (rev p ++ cur) s.
Proof.
  revert cur. induction p as [|c p IH]; intros cur Hp; [done|].
  simpl. rewrite (Hp c) by left.
  rewrite IH by (intros c' Hc'; apply Hp; by right).
  by rewrite <- app_assoc.
Qed.

(** The lines joined by newlines are split into the lines again. *)
Lemma splitlines_from_join (lines : list str) (l cur : str) :
  (∀ w c, w ∈ l :: lines → c ∈ w → is_linebreak c = false) →
  last (l :: lines) ≠ Some [] →
  splitlines_from cur (join ["010"%char] (l :: lines)) = (rev cur ++ l) :: lines.
Proof.
  revert l cur. induction lines as [|l' ls IH]; intros l cur Hclean Hlast.
  - simpl. rewrite <- (app_nil_r l) at 1.
    rewrite splitlines_from_line by (intros c Hc; apply (Hclean l); [left|done]).
    simpl. destruct (rev l ++ cur) as [|c0 r] eqn:Hr.
    + apply app_eq_nil in Hr as [Hl _].
      destruct l; [by destruct Hlast|].
      simpl in Hl. symmetry in Hl. by apply app_cons_not_nil in Hl.
    + rewrite <- Hr, rev_app_distr, rev_involutive. done.
  - change (join ["010"%char] (l :: l' :: ls))
      with (l ++ "010"%char :: join ["010"%char] (l' :: ls)).
    rewrite splitlines_from_line by (intros c Hc; apply (Hclean l); [left|done]).
    cbn [splitlines_from].
    change (is_linebreak "010") with true. cbv beta iota.
    rewrite rev_app_distr, rev_involutive.
    assert (Hrest : splitlines_from [] (join ["010"%char] (l' :: ls)) = l' :: ls).
    { rewrite IH; [done | |].
      - intros w c Hw. apply Hclean. by right.
      - done. }
    f_equal. destruct (join ["010"%char] (l' :: ls)) as [|c1 s'']; [done|].
    change (Ascii.eqb "010" "013") with false. done.
Qed.

(** X12. A word file written with one word on each line is read back as
    the list of its words: if no word has a line break in it and the last
    word is not empty, [splitlines] on the words joined by newlines gives the
    words, and [load] from such a file stores what [load] from the list
    stores. *)
Theorem load_file_as_list (fs : str → option str) (self : TextCorrector)
    (path : str) (lines : list str) :
  (∀ w c, w ∈ lines → c ∈ w → is_linebreak c = false) →
  last lines ≠ Some [] →
  fs path = Some (join ["010"%char] lines) →
  splitlines (join ["010"%char] lines) = lines ∧
  load fs self (InputPath path) = load fs self (InputList lines).
Proof.
  intros Hclean Hlast Hfs.
  assert (Hsplit : splitlines (join ["010"%char] lines) = lines).
  { destruct lines as [|l ls]; [done|].
    unfold splitlines. by rewrite splitlines_from_join. }
  split; [done|]. unfold load. by rewrite Hfs, Hsplit.
Qed.

Lemma load_file_as_list_witness :
  two_lines_fs [] = Some (join ["010"%char] [list_ascii_of_string "ab"; hello]) ∧
  load two_lines_fs (init (3 # 10)) (InputPath [])
  = load two_lines_fs (init (3 # 10)) (InputList [list_ascii_of_string "ab"; hello]).
Proof.
  split; [reflexivity|].
  refine (proj2 (load_file_as_list two_lines_fs (init (3 # 10)) []
                   [list_ascii_of_string "ab"; hello] _ _ _)).
  - intros w c Hw Hc. elem_cases Hw; elem_cases Hc; reflexivity.
  - discriminate.
  - reflexivity.
Defined.

(** ** correct: where the words are put *)

Lemma slice_length {A} (s : list A) (a b : Z) :
  0 ≤ a → a ≤ b → b ≤ len s → len (slice s a b) = b - a.
Proof.
  intros Ha Hab Hb. unfold slice, slice_bound, len in *.
  destruct (Z.ltb_spec a 0); [lia|]. destruct (Z.ltb_spec b 0); [lia|].
  rewrite length_take, length_drop. lia.
Qed.

Lemma slice_middle {A} (l1 l2 l3 : list A) :
  slice (l1 ++ l2 ++ l3) (len l1) (len l1 + len l2) = l2.
Proof.
  unfold slice, slice_bound, len.
  destruct (Z.ltb_spec (Z.of_nat (length l1)) 0); [lia|].
  destruct (Z.ltb_spec (Z.of_nat (length l1) + Z.of_nat (length l2)) 0); [lia|].
  rewrite !length_app.
  replace (Z.to_nat (Z.min (Z.of_nat (length l1)) _)) with (length l1) by lia.
  replace (Z.to_nat _) with (length l2) by lia.
  rewrite drop_app_length. by rewrite take_app_length.
Qed.

Lemma pieces_zip (text : str) (x : span) (ps : list span) (n : Z) :
  (λ xy : span * span, slice text xy.1.2 xy.2.1)
    <$> zip (x :: ps ++ [(n, n)]) (ps ++ [(n, n)])
  = pieces text x.2 ps n.
Proof.
  revert x. induction ps as [|p ps IH]; intros x; [done|].
  simpl. f_equal. apply IH.
Qed.

Lemma rebuilt_pieces (text query : str) (chosen : list span) :
  rebuilt text query chosen
  = join (" "%char :: query ++ [" "%char]) (pieces text 0 chosen (len text)).
Proof. unfold rebuilt. cbn [app drop]. by rewrite pieces_zip. Qed.

Lemma join_pieces_cons (sep text : str) (prev : Z) (p : span) (ps : list span) (n : Z) :
  join sep (pieces text prev (p :: ps) n)
  = slice text prev p.1 ++ sep ++ join sep (pieces text p.2 ps n).
Proof. simpl. by destruct ps. Qed.

(** The word of the [k]-th position starts, in the new text, at the start of
    the position moved by the shift of the positions before it. *)
Lemma join_pieces_split (sep text : str) (ps : list span) (prev : Z) (k : nat) (p : span) :
  0 ≤ prev → in_sequence prev ps (len text) →
  ps !! k = Some p →
  ∃ l1 l3,
    join sep (pieces text prev ps (len text)) = l1 ++ sep ++ l3 ∧
    len l1 = p.1 + shift_before ps (len sep) k - prev.
Proof.
  revert prev k. induction ps as [|q ps IH]; intros prev k Hprev Hseq Hk; [done|].
  destruct Hseq as (Hq1 & Hq2 & Hseq).
  assert (Hbound : q.2 ≤ len text).
  { clear -Hseq. revert Hseq. generalize q.2. induction ps as [|r ps IH]; simpl; [done|].
    intros z (? & ? & Hr). specialize (IH _ Hr). lia. }
  rewrite join_pieces_cons. destruct k as [|k].
  - injection Hk as ->. exists (slice text prev p.1), (join sep (pieces text p.2 ps (len text))).
    split; [done|]. simpl. rewrite slice_length by lia. lia.
  - simpl in Hk. destruct (IH q.2 k ltac:(lia) Hseq Hk) as (l1 & l3 & Heq & Hlen).
    exists (slice text prev q.1 ++ sep ++ l1), l3. split.
    + rewrite Heq. by rewrite <- !app_assoc.
    + unfold len in *. rewrite !length_app. simpl.
      pose proof (slice_length text prev q.1 ltac:(lia) ltac:(lia) ltac:(unfold len; lia)) as Hs.
      unfold len in Hs. lia.
Qed.

(** The interval of the [k]-th position is in the merge. *)
Lemma new_interval_in_remap (shift : Z) (positions pending : list span) (cum : Z)
    (k : nat) (p : span) :
  positions !! k = Some p →
  new_interval p shift (cum + shift_before positions shift k)
  ∈ remap pending positions shift cum.
Proof.
  revert pending cum k. induction positions as [|q ps IH]; intros pending cum k Hk; [done|].
  simpl. destruct (remap_one_split q shift cum pending) as (before & _ & Hf & _).
  destruct (remap_one q shift cum pending) as [f r]. simpl in Hf. subst f.
  apply elem_of_app. destruct k as [|k].
  - injection Hk as ->. left. apply elem_of_app. right.
    apply list_elem_of_singleton. simpl. by rewrite Z.add_0_r.
  - right. simpl in Hk. specialize (IH r (next_shift q shift cum) k Hk).
    unfold next_shift in *. simpl. by rewrite Z.add_assoc.
Qed.

(** A span that [find] returns lies in the text. *)
Lemma found_span_in_text (self : TextCorrector) (text query : str)
    (found : list (span * Q)) (sp : span) (s : Q) :
  find self text query = Returns found → (sp, s) ∈ found →
  0 ≤ sp.1 ∧ sp.1 ≤ sp.2 ∧ sp.2 ≤ len text.
Proof.
  intros Hfind Hin.
  destruct (find_returns self text query) as (found' & Hfind' & _ & Hmem).
  rewrite Hfind in Hfind'. injection Hfind' as <-.
  apply Hmem in Hin as [Hend [_ Hpath]].
  rewrite forward_unfold in Hend. simpl in Hend.
  apply forward_ends_in_range in Hend.
  apply path_in_table in Hpath as ([Hc1 Hc2] & _ & Hcol);
    [|unfold in_table, len in *; simpl; lia].
  simpl in *. lia.
Qed.

(** Spans in Python's order that do not intersect follow one another. *)
Lemma chosen_in_sequence (l : list span) (prev n : Z) :
  ordered (fun x y : span => x.1 < y.1 ∨ (x.1 = y.1 ∧ x.2 ≤ y.2)) l →
  pairwise_disjoint l →
  (∀ x, x ∈ l → prev ≤ x.1 ∧ x.1 ≤ x.2 ∧ x.2 ≤ n) →
  prev ≤ n →
  in_sequence prev l n.
Proof.
  revert prev. induction l as [|x l IH]; intros prev Hord Hpd Hin Hprev; [done|].
  apply ordered_cons in Hord as [Hx Hord].
  apply pairwise_disjoint_cons in Hpd as [Hxd Hpd].
  destruct (Hin x ltac:(left)) as (H1 & H2 & H3).
  simpl. split_and!; [done | done |].
  apply IH; [done | done | | done].
  intros y Hy. destruct (Hin y ltac:(by right)) as (Hy1 & Hy2 & Hy3).
  split_and!; [|done..].
  specialize (Hx y Hy). specialize (Hxd y Hy). simpl in Hx.
  unfold intersect in Hxd. apply andb_false_iff in Hxd. lia.
Qed.

Lemma sorted_pairs_lexicographic (l : list span) :
  ordered (fun x y : span => x.1 < y.1 ∨ (x.1 = y.1 ∧ x.2 ≤ y.2)) (sorted_by pair_le l).
Proof.
  apply sorted_by_ordered; unfold pair_le.
  - intros x y H. apply orb_true_iff in H as [H|H]; [left; lia|].
    apply andb_true_iff in H as [H1 H2]. right. lia.
  - intros x y H. apply orb_false_iff in H as [H1 H2].
    apply andb_false_iff in H2. lia.
  - intros x y z. lia.
Qed.

Lemma join_pieces_length (sep text : str) (ps : list span) (prev : Z) :
  0 ≤ prev → in_sequence prev ps (len text) →
  len (join sep (pieces text prev ps (len text)))
  = len text - prev + shift_before ps (len sep) (length ps).
Proof.
  revert prev. induction ps as [|q ps IH]; intros prev Hprev Hseq.
  - simpl in *. rewrite slice_length by lia. lia.
  - destruct Hseq as (Hq1 & Hq2 & Hseq).
    assert (Hbound : q.2 ≤ len text).
    { clear -Hseq. revert Hseq. generalize q.2. induction ps as [|r ps IH]; simpl; [done|].
      intros z (? & ? & Hr). specialize (IH _ Hr). lia. }
    rewrite join_pieces_cons. specialize (IH q.2 ltac:(lia) Hseq).
    pose proof (slice_length text prev q.1 ltac:(lia) ltac:(lia) ltac:(lia)) as Hs.
    unfold len in *. rewrite !length_app. simpl. lia.
Qed.

(** The positions that [choose_positions] returns follow one another in
    the text. *)
Lemma chosen_positions_in_sequence (self : TextCorrector) (text query : str)
    (found : list (span * Q)) :
  find self text query = Returns found →
  in_sequence 0 (choose_from (changed self) found) (len text).
Proof.
  intros Hfind. unfold choose_from.
  destruct (select_positions_disjoint (changed self)
              (sorted_by (λ x y : span * Q, Qle_bool x.2 y.2) found)) as [Hpd _].
  apply chosen_in_sequence.
  - apply sorted_pairs_lexicographic.
  - eapply pairwise_disjoint_perm; [symmetry; apply sorted_by_perm | done].
  - intros x Hx. rewrite sorted_by_perm in Hx.
    apply select_positions_subset in Hx as [s Hs]. rewrite sorted_by_perm in Hs.
    by apply (found_span_in_text self text query found x s).
  - unfold len. lia.
Qed.

(** X13. In the text that a round of [correct] builds, each chosen
    position holds the word of the round with a space on each side, at the
    interval that starts where the position started, moved by the shift of
    the positions before it, and that is as wide as the padded word.  That
    interval is one of the protected intervals after the round if the list
    of protected intervals was not empty before it.  The new text is longer
    than the old one by the shifts of all the positions. *)
Theorem correct_word_places_words (self self' : TextCorrector) (text text' query : str) :
  correct_word (self, text) query = Returns (self', text') →
  ∃ chosen,
    choose_positions self text query = Returns chosen ∧
    self' = add_positions self chosen (len query + 2) ∧
    len text' = len text + shift_before chosen (len query + 2) (length chosen) ∧
    ∀ k p, chosen !! k = Some p →
      let r := new_interval p (len query + 2) (shift_before chosen (len query + 2) k) in
      slice text' r.1 r.2 = " "%char :: query ++ [" "%char] ∧
      (changed self ≠ [] → r ∈ changed self').
Proof.
  intros Hword.
  destruct (find_returns self text query) as (found & Hfind & _).
  pose proof (chosen_positions_in_sequence self text query found Hfind) as Hseq.
  unfold correct_word, choose_positions in Hword. rewrite Hfind in Hword.
  cbn [mbind outcome_bind] in Hword.
  fold (rebuilt text query (choose_from (changed self) found)) in Hword.
  injection Hword as <- <-.
  set (chosen := choose_from (changed self) found) in *.
  set (sep := " "%char :: query ++ [" "%char]).
  assert (Hsep : len sep = len query + 2).
  { unfold sep, len. simpl. rewrite length_app. simpl. lia. }
  exists chosen. split; [unfold choose_positions; by rewrite Hfind|].
  split; [done|]. rewrite rebuilt_pieces. fold sep. split.
  - rewrite join_pieces_length by done. rewrite Hsep. lia.
  - intros k p Hk r. split.
    + destruct (join_pieces_split sep text chosen 0 k p ltac:(lia) Hseq Hk)
        as (l1 & l3 & -> & Hlen).
      rewrite Hsep in Hlen. unfold r, new_interval. simpl.
      replace (p.1 + shift_before chosen (len query + 2) k) with (len l1) by lia.
      rewrite <- Hsep. exact (slice_middle l1 sep l3).
    + intros Hne. destruct (add_positions_changed self chosen (len query + 2)) as [-> _].
      destruct chosen as [|c0 cs] eqn:Hc; [done|].
      destruct (changed self) as [|o os]; [done|].
      unfold r. rewrite <- (Z.add_0_l (shift_before _ _ _)).
      by apply new_interval_in_remap.
Qed.

Lemma correct_word_places_words_witness :
  correct_word (set_changed [(20, 25)] hello_corrector, helo_world) hello
  = Returns (add_positions (set_changed [(20, 25)] hello_corrector) [(0, 4)] 7,
             list_ascii_of_string " hello  world") ∧
  ∃ chosen,
    choose_positions (set_changed [(20, 25)] hello_corrector) helo_world hello
    = Returns chosen ∧
    add_positions (set_changed [(20, 25)] hello_corrector) [(0, 4)] 7
    = add_positions (set_changed [(20, 25)] hello_corrector) chosen (len hello + 2) ∧
    len (list_ascii_of_string " hello  world")
    = len helo_world + shift_before chosen (len hello + 2) (length chosen) ∧
    ∀ k p, chosen !! k = Some p →
      let r := new_interval p (len hello + 2) (shift_before chosen (len hello + 2) k) in
      slice (list_ascii_of_string " hello  world") r.1 r.2
      = " "%char :: hello ++ [" "%char] ∧
      (changed (set_changed [(20, 25)] hello_corrector) ≠ [] →
       r ∈ changed (add_positions (set_changed [(20, 25)] hello_corrector) [(0, 4)] 7)).
Proof.
  assert (H : correct_word (set_changed [(20, 25)] hello_corrector, helo_world) hello
              = Returns (add_positions (set_changed [(20, 25)] hello_corrector) [(0, 4)] 7,
                         list_ascii_of_string " hello  world"))
    by (vm_compute; reflexivity).
  split; [exact H|].
  exact (correct_word_places_words _ _ _ _ _ H).
Defined.

(** ** intersect *)

(** X14. Two spans that are not empty intersect exactly when they have an
    offset of the text in common. *)
Theorem intersect_shared_offset (x y : span) :
  x.1 < x.2 → y.1 < y.2 →
  (intersect x y = true ↔ ∃ k, x.1 ≤ k < x.2 ∧ y.1 ≤ k < y.2).
Proof.
  intros Hx Hy. unfold intersect. rewrite andb_true_iff, !Z.ltb_lt. split.
  - intros [H1 H2]. exists (Z.max x.1 y.1). lia.
  - intros (k & H1 & H2). lia.
Qed.

Lemma intersect_shared_offset_witness :
  (0 < 4 ∧ 3 < 10) ∧ (intersect (0, 4) (3, 10) = true ↔ ∃ k, 0 ≤ k < 4 ∧ 3 ≤ k < 10).
Proof.
  split; [lia|].
  apply (intersect_shared_offset (0, 4) (3, 10)); simpl; lia.
Defined.

(** ** find: the case of the letters *)










(** ** find: a query longer than the text *)

(** A prefix of the query that is longer than the text read so far costs
    the characters that it has more. *)
Lemma Ecell_ge_excess (text query : str) (i j : nat) :
  (i ≤ Ecell text query i j + j)%nat.
Proof.
  revert j. induction i as [|i' IHi]; intros j; [lia|].
  induction j as [|j' IHj]; [rewrite Ecell_col0; lia|].
  rewrite Ecell_inner.
  pose proof (IHi (S j')). pose proof (IHi j').
  unfold min3. lia.
Qed.

(** X16. A word that is longer than the text is not found when even the
    characters that it has more cost too much: if the threshold is below
    [(len(query) - len(text)) / len(query)], [find] returns nothing. *)
Theorem find_query_too_long (self : TextCorrector) (text query : str) :
  (threshold self < normalized (length query - length text) query)%Q →
  find self text query = Returns [].
Proof.
  intros Ht. unfold find. rewrite forward_unfold. cbv beta iota zeta.
  assert (Hends : forward_ends (threshold self) (forward_tables text query).1
                    (len query) (len text) (len query) = []).
  { apply omap_all_None. intros j Hj. apply elem_of_range in Hj.
    unfold np_divide. destruct (Z.eqb_spec (len query) 0) as [Hq|Hq];
      [by destruct (Nat.eqb _ 0)|].
    destruct (Qle_bool _ (threshold self)) eqn:Hle; [|done].
    apply Qle_bool_iff in Hle.
    rewrite forward_E_at in Hle by (unfold len in *; lia).
    pose proof (Ecell_ge_excess text query (Z.to_nat (len query)) (Z.to_nat j)) as HE.
    unfold normalized, Qle, Qlt, len in *. simpl in *.
    rewrite Z2Pos.id in * by lia. nia. }
  by rewrite Hends.
Qed.

Lemma find_query_too_long_witness :
  (threshold (init (3 # 10))
   < normalized (length (list_ascii_of_string "xyz") - length (list_ascii_of_string "a"))
                (list_ascii_of_string "xyz"))%Q ∧
  find (init (3 # 10)) (list_ascii_of_string "a") (list_ascii_of_string "xyz") = Returns [].
Proof.
  assert (H : (threshold (init (3 # 10))
               < normalized (length (list_ascii_of_string "xyz")
                             - length (list_ascii_of_string "a"))
                            (list_ascii_of_string "xyz"))%Q) by reflexivity.
  split; [exact H|].
  exact (find_query_too_long _ _ _ H).
Defined.

(** ** correct: a text that matches a word *)

(** The distance is at least the difference of the lengths. *)
Lemma lev_ge_difference (q s : str) (i j : nat) :
  (i ≤ lev q s i j + j)%nat ∧ (j ≤ lev q s i j + i)%nat.
Proof.
  revert j. induction i as [|i' IHi]; intros j; [simpl; lia|].
  induction j as [|j' IHj]; [rewrite lev_col0; lia|].
  rewrite lev_inner.
  pose proof (IHi (S j')). pose proof (IHi j').
  unfold min3. lia.
Qed.

Lemma len_zero_nil {A} (l : list A) : len l = 0 → l = [].
Proof. destruct l; [done|]. unfold len. simpl. lia. Qed.

(** The first entry of a sorted list is not above any entry. *)
Lemma sorted_by_head {A} (le : A → A → bool) (R : A → A → Prop) (l : list A) :
  (∀ x y, le x y = true → R x y) →
  (∀ x y, le x y = false → R y x) →
  (∀ x y z, R x y → R y z → R x z) →
  (∀ x, R x x) →
  l ≠ [] →
  ∃ h rest, sorted_by le l = h :: rest ∧ h ∈ l ∧ (∀ x, x ∈ rest → x ∈ l) ∧ ∀ x, x ∈ l → R h x.
Proof.
  intros H1 H2 H3 H4 Hne.
  pose proof (sorted_by_ordered le R H1 H2 H3 l) as Hord.
  pose proof (sorted_by_perm le l) as Hperm.
  destruct (sorted_by le l) as [|h rest].
  - apply Permutation_nil in Hperm. done.
  - exists h, rest. apply ordered_cons in Hord as [Hh _].
    split; [done|]. split; [rewrite <- Hperm; by left|]. split.
    + intros x Hx. rewrite <- Hperm. by right.
    + intros x Hx. rewrite <- Hperm in Hx.
      apply elem_of_cons in Hx as [->|Hx]; [apply H4 | by apply Hh].
Qed.

(** After a span was kept, the spans that intersect it are dropped. *)
Lemma select_positions_first (h : span * Q) (rest : list (span * Q)) :
  (∀ p, p ∈ rest → intersect p.1 h.1 = true) →
  select_positions [] (h :: rest) = [h.1].
Proof.
  intros Hrest. unfold select_positions. cbn [foldl existsb app].
  induction rest as [|p rest IH]; [done|].
  cbn [foldl existsb app]. rewrite (Hrest p) by left. cbn [orb].
  apply IH. intros p' Hp'. apply Hrest. by right.
Qed.

(** The spans found on a text that matches the query and is as long. *)
Lemma found_on_matching_text (self : TextCorrector) (text query : str)
    (found : list (span * Q)) :
  query ≠ [] →
  (0 <= threshold self)%Q → (threshold self < 1)%Q →
  length text = length query →
  (∀ k, (k < length query)%nat →
        distance (item query (Z.of_nat k)) (item text (Z.of_nat k)) = 0%nat) →
  find self text query = Returns found →
  ((0, len query), normalized 0 query) ∈ found ∧
  (∀ sp s, (sp, s) ∈ found → intersect sp (0, len query) = true) ∧
  (∀ sp s, (sp, s) ∈ found → (s <= normalized 0 query)%Q → sp = (0, len query)).
Proof.
  intros Hq Ht0 Ht1 Hlen Hocc Hfind.
  destruct (find_returns self text query) as (found' & Hfind' & _ & Hmem).
  rewrite Hfind in Hfind'. injection Hfind' as <-.
  assert (Hm : (0 < length query)%nat) by (destruct query; [done | simpl; lia]).
  assert (Hfacts : ∀ sp s, (sp, s) ∈ found →
            0 ≤ sp.1 ∧ sp.1 ≤ sp.2 ∧ sp.2 ≤ len query ∧ (s <= threshold self)%Q ∧
            s = normalized (edit_distance query
                              (substring text (Z.to_nat sp.1) (Z.to_nat sp.2))) query).
  { intros sp s Hin.
    pose proof (found_span_in_text self text query found sp s Hfind Hin) as (? & ? & ?).
    pose proof (found_score_is_distance self text query found sp s Hfind Hin) as [Hs _].
    apply Hmem in Hin as [Hend _]. rewrite forward_unfold in Hend. simpl in Hend.
    apply forward_ends_facts in Hend as (_ & _ & _ & Hle).
    unfold len in *. split_and!; [lia | lia | lia | done | done]. }
  assert (Hdist : ∀ sp : span, 0 ≤ sp.1 → sp.1 ≤ sp.2 → sp.2 ≤ len query →
            (length query
             ≤ edit_distance query (substring text (Z.to_nat sp.1) (Z.to_nat sp.2))
               + Z.to_nat (sp.2 - sp.1))%nat).
  { intros sp H1 H2 H3. unfold edit_distance.
    pose proof (lev_ge_difference query (substring text (Z.to_nat sp.1) (Z.to_nat sp.2))
                  (length query) (length (substring text (Z.to_nat sp.1) (Z.to_nat sp.2))))
      as [Hd _].
    unfold substring in *. rewrite length_take, length_drop in *.
    unfold len in *. lia. }
  split_and!.
  - apply Hmem. simpl. split.
    + rewrite forward_unfold. simpl.
      apply elem_of_forward_ends; [by apply len_nonzero|].
      split; [unfold len; lia|]. split.
      * unfold normalized. f_equal. unfold len at 1 2.
        rewrite forward_tables_E by lia.
        by rewrite <- (Nat.add_0_l (length query)) at 2; rewrite Ecell_occurrence.
      * unfold normalized, Qle in *. simpl in *. nia.
    + split; [done|]. unfold len.
      rewrite <- (Nat.add_0_l (length query)) at 2.
      apply (path_occurrence text query 0 (length query)); [lia | lia | done].
  - intros sp s Hin. destruct (Hfacts sp s Hin) as (H1 & H2 & H3 & Hle & Hs).
    pose proof (Hdist sp H1 H2 H3) as Hd.
    assert (sp.1 < sp.2).
    { destruct (decide (sp.1 = sp.2)) as [Heq|]; [|lia]. exfalso.
      subst s. unfold normalized, Qle, Qlt, len in *. simpl in *.
      rewrite Z2Pos.id in Hle by lia. nia. }
    unfold intersect. simpl. apply andb_true_iff. rewrite !Z.ltb_lt. lia.
  - intros sp s Hin Hzero. destruct (Hfacts sp s Hin) as (H1 & H2 & H3 & Hle & Hs).
    pose proof (Hdist sp H1 H2 H3) as Hd.
    subst s. unfold normalized, Qle in Hzero. cbn [Qnum Qden] in Hzero.
    assert (HE : edit_distance query (substring text (Z.to_nat sp.1) (Z.to_nat sp.2))
                 = 0%nat) by nia.
    rewrite HE in Hd. destruct sp as [a b]. cbn [fst snd] in *.
    f_equal; unfold len in *; lia.
Qed.

Lemma rebuilt_whole (text query : str) :
  rebuilt text query [(0, len text)] = " "%char :: query ++ [" "%char].
Proof.
  rewrite rebuilt_pieces. cbn [pieces fst snd].
  assert (H0 : slice text 0 0 = []).
  { apply len_zero_nil. rewrite slice_length; unfold len; lia. }
  assert (H1 : slice text (len text) (len text) = []).
  { apply len_zero_nil. rewrite slice_length; unfold len; lia. }
  rewrite H0, H1. simpl. by rewrite app_nil_r.
Qed.

(** The positions chosen on a text that matches the query: the whole text. *)
Lemma chosen_on_matching_text (self : TextCorrector) (text query : str)
    (found : list (span * Q)) :
  query ≠ [] →
  (0 <= threshold self)%Q → (threshold self < 1)%Q →
  length text = length query →
  (∀ k, (k < length query)%nat →
        distance (item query (Z.of_nat k)) (item text (Z.of_nat k)) = 0%nat) →
  find self text query = Returns found →
  choose_from [] found = [(0, len text)].
Proof.
  intros Hq Ht0 Ht1 Hlen Hocc Hfind.
  destruct (found_on_matching_text self text query found Hq Ht0 Ht1 Hlen Hocc Hfind)
    as (Hwhole & Hinter & Hzero).
  destruct (sorted_by_head (λ x y : span * Q, Qle_bool x.2 y.2)
              (λ x y : span * Q, (x.2 <= y.2)%Q) found)
    as (h & rest & Hsorted & Hh & Hrest & Hmin).
  - intros x y H. by apply Qle_bool_iff.
  - intros x y H. apply Qlt_le_weak, Qnot_le_lt. intros Hle.
    apply Qle_bool_iff in Hle. congruence.
  - intros x y z. apply Qle_trans.
  - intros x. apply Qle_refl.
  - intros ->. by apply elem_of_nil in Hwhole.
  - unfold choose_from. rewrite Hsorted.
    assert (Hh1 : h.1 = (0, len query)).
    { destruct h as [sp s]. apply (Hzero sp s Hh).
      apply (Hmin ((0, len query), normalized 0 query) Hwhole). }
    rewrite select_positions_first.
    + rewrite Hh1. unfold len. by rewrite Hlen.
    + intros [sp s] Hp. rewrite Hh1. apply (Hinter sp s). by apply Hrest.
Qed.

(** X17. A text that is a word of a one-word vocabulary, up to the case of
    the letters and to the kind of the blanks, is replaced by the word: for a
    threshold of at least 0 and below 1, [correct] returns the word with a
    space on each side (with the runs of spaces collapsed, if the word has
    blanks at its ends). *)
Theorem correct_matching_text (self : TextCorrector) (text query : str) :
  query ≠ [] →
  (0 <= threshold self)%Q → (threshold self < 1)%Q →
  words self = [query] →
  length text = length query →
  (∀ k, (k < length query)%nat →
        distance (item query (Z.of_nat k)) (item text (Z.of_nat k)) = 0%nat) →
  correct_text self text
  = Returns (collapse_spaces (" "%char :: query ++ [" "%char])).
Proof.
  intros Hq Ht0 Ht1 Hwords Hlen Hocc.
  destruct (find_returns (set_changed [] self) text query) as (found & Hfind & _).
  pose proof (chosen_on_matching_text (set_changed [] self) text query found
                Hq Ht0 Ht1 Hlen Hocc Hfind) as Hchosen.
  unfold correct_text, correct. rewrite Hwords. cbn [foldl].
  change (st ← Returns (set_changed [] self, text); correct_word st query)
    with (correct_word (set_changed [] self, text) query).
  unfold correct_word, choose_positions. rewrite Hfind.
  cbn [mbind outcome_bind].
  fold (rebuilt text query (choose_from (changed (set_changed [] self)) found)).
  change (changed (set_changed [] self)) with (@nil span).
  rewrite Hchosen, rebuilt_whole. done.
Qed.

Lemma correct_matching_text_witness :
  words hello_corrector = [hello] ∧
  correct_text hello_corrector (list_ascii_of_string "HeLLo")
  = Returns (list_ascii_of_string " hello ").
Proof.
  split; [reflexivity|].
  apply (correct_matching_text hello_corrector (list_ascii_of_string "HeLLo") hello).
  - discriminate.
  - discriminate.
  - reflexivity.
  - reflexivity.
  - reflexivity.
  - intros k Hk. simpl in Hk.
    destruct k as [|[|[|[|[|k]]]]]; [reflexivity.. | lia].
Defined.
